(** * RibMaker engine: a shallow embedding of [src/engine/ribEngine.ts]

    The engine turns a [RibParams] value into per-rib depth profiles,
    prices the array and serialises the profiles as a DXF document.

    Modelling choices, fixed once for the whole development:

    - A JavaScript [number] is a value of type [number]: an exact rational
      ([Fin q], [q : Qc], canonical so that equality is Leibniz equality) or
      one of the three non-finite values [NaN], [PInf], [NInf].  Arithmetic on
      finite values is exact (no binary64 rounding, no overflow); the two
      signed zeros are identified (a zero divisor counts as [+0]).  Division
      by zero, [0/0], [Infinity * 0] and the comparisons with [NaN] behave as
      in ECMAScript.
    - Because rounding is not modelled, a statement whose truth could depend
      on how an operation rounds or on whether it overflows is made in a
      form that does not: its hypotheses name the results as computed (a
      quotient given by its value) or keep the inputs at sizes where nothing
      overflows and the loops are short, and its conclusion relates values
      of the same run to one another rather than to an exact formula.
    - A call either returns, throws a [TypeError] (property access on
      [undefined]) or never returns because a [for] loop has an infinite
      bound: type [outcome].
    - The module-level [imageData]/[imageCanvas] pair is an explicit
      [option ImageSource] argument.
    - [generateRibProfiles] assigns to two fields of its argument; the
      model returns the final state of that object next to the result. *)

From Stdlib Require Import ZArith QArith Qcanon Qround.
From Stdlib Require Import List String Ascii Bool Lia Lqa.
From Stdlib Require Import Strings.Byte.
From Stdlib Require Import DecimalString.
Import ListNotations.

Set Implicit Arguments.
Open Scope Z_scope.

(** ** Outcome of a call *)

Inductive js_error : Type :=
| TypeError.

Inductive outcome (A : Type) : Type :=
| Returns (a : A)
| Throws (e : js_error)
| Diverges.

Arguments Returns {A} a.
Arguments Throws {A} e.
Arguments Diverges {A}.

Definition bind {A B : Type} (m : outcome A) (k : A -> outcome B) : outcome B :=
  match m with
  | Returns a => k a
  | Throws e => Throws e
  | Diverges => Diverges
  end.

Notation "x <- m ;; k" := (bind m (fun x => k))
  (at level 61, m at next level, right associativity).

(** Runs [f] on the elements of [l] from left to right and stops at the
    first call that does not return. *)
Fixpoint for_each {A B : Type} (f : A -> outcome B) (l : list A) : outcome (list B) :=
  match l with
  | [] => Returns []
  | a :: l' => b <- f a ;; bs <- for_each f l' ;; Returns (b :: bs)
  end.

(** [obj.field] where [obj] may be [undefined]. *)
Definition property {A : Type} (o : option A) : outcome A :=
  match o with
  | Some a => Returns a
  | None => Throws TypeError
  end.

(** ** JavaScript numbers *)

Inductive number : Type :=
| NaN
| PInf
| NInf
| Fin (q : Qc).

Definition of_Z (z : Z) : number := Fin (Q2Qc (inject_Z z)).
Definition of_nat (n : nat) : number := of_Z (Z.of_nat n).
Definition of_N (n : N) : number := of_Z (Z.of_N n).
Definition frac (n : Z) (d : positive) : number := Fin (Q2Qc (n # d)).

Definition Qc_eqb (a b : Qc) : bool :=
  match (a ?= b)%Qc with Eq => true | _ => false end.
Definition Qc_ltb (a b : Qc) : bool :=
  match (a ?= b)%Qc with Lt => true | _ => false end.
Definition Qc_leb (a b : Qc) : bool :=
  match (a ?= b)%Qc with Gt => false | _ => true end.

(** Sign of a number as a comparison with zero; [Eq] for zero and [NaN]. *)
Definition sign (a : number) : comparison :=
  match a with
  | NaN => Eq
  | PInf => Gt
  | NInf => Lt
  | Fin q => (q ?= 0)%Qc
  end.

Definition sign_mul (s1 s2 : comparison) : comparison :=
  match s1, s2 with
  | Eq, _ | _, Eq => Eq
  | Gt, Gt | Lt, Lt => Gt
  | _, _ => Lt
  end.

(** The infinity of a given sign; a zero sign gives [NaN]
    ([Infinity * 0], [0 / 0]). *)
Definition inf_of_sign (s : comparison) : number :=
  match s with
  | Gt => PInf
  | Lt => NInf
  | Eq => NaN
  end.

Definition neg (a : number) : number :=
  match a with
  | NaN => NaN
  | PInf => NInf
  | NInf => PInf
  | Fin q => Fin (- q)%Qc
  end.

Definition add (a b : number) : number :=
  match a, b with
  | NaN, _ | _, NaN => NaN
  | PInf, NInf | NInf, PInf => NaN
  | PInf, _ | _, PInf => PInf
  | NInf, _ | _, NInf => NInf
  | Fin x, Fin y => Fin (x + y)%Qc
  end.

Definition sub (a b : number) : number := add a (neg b).

Definition mul (a b : number) : number :=
  match a, b with
  | NaN, _ | _, NaN => NaN
  | Fin x, Fin y => Fin (x * y)%Qc
  | _, _ => inf_of_sign (sign_mul (sign a) (sign b))
  end.

(** The sign of a divisor, its zero counted as [+0]. *)
Definition divisor_sign (b : number) : comparison :=
  match sign b with
  | Lt => Lt
  | _ => Gt
  end.

Definition div (a b : number) : number :=
  match a, b with
  | NaN, _ | _, NaN => NaN
  | Fin x, Fin y =>
      if Qc_eqb y 0 then inf_of_sign (sign a) else Fin (x / y)%Qc
  | Fin _, _ => Fin 0%Qc
  | _, Fin _ => inf_of_sign (sign_mul (sign a) (divisor_sign b))
  | _, _ => NaN
  end.

(** [a < b], [a <= b], [a > b], [a === b]: all false when an operand is [NaN]. *)
Definition lt (a b : number) : bool :=
  match a, b with
  | NaN, _ | _, NaN => false
  | _, NInf => false
  | NInf, _ => true
  | PInf, _ => false
  | _, PInf => true
  | Fin x, Fin y => Qc_ltb x y
  end.

Definition le (a b : number) : bool :=
  match a, b with
  | NaN, _ | _, NaN => false
  | NInf, _ => true
  | _, NInf => false
  | _, PInf => true
  | PInf, _ => false
  | Fin x, Fin y => Qc_leb x y
  end.

Definition gt (a b : number) : bool := lt b a.

Definition strict_eq (a b : number) : bool :=
  match a, b with
  | PInf, PInf | NInf, NInf => true
  | Fin x, Fin y => Qc_eqb x y
  | _, _ => false
  end.

(** *** The [Math] object *)

Definition Math_floor (a : number) : number :=
  match a with
  | Fin q => of_Z (Qfloor q)
  | _ => a
  end.

Definition Math_ceil (a : number) : number :=
  match a with
  | Fin q => of_Z (Qceiling q)
  | _ => a
  end.

(** [Math.round] rounds halves towards [+Infinity]. *)
Definition Math_round (a : number) : number :=
  match a with
  | Fin q => of_Z (Qfloor (q + Q2Qc (1 # 2))%Qc)
  | _ => a
  end.

Definition Math_abs (a : number) : number :=
  match a with
  | NaN => NaN
  | PInf | NInf => PInf
  | Fin q => if Qc_ltb q 0 then Fin (- q)%Qc else a
  end.

Definition Math_min (a b : number) : number :=
  match a, b with
  | NaN, _ | _, NaN => NaN
  | _, _ => if le a b then a else b
  end.

Definition Math_max (a b : number) : number :=
  match a, b with
  | NaN, _ | _, NaN => NaN
  | _, _ => if le a b then b else a
  end.

(** [Math.PI] is the binary64 constant 3.141592653589793, here with its
    exact value 884279719003555 / 2^48. *)
Definition Math_PI : number := frac 884279719003555 281474976710656.

(** Truncation towards zero. *)
Definition Qc_trunc (q : Qc) : Z :=
  if Qc_ltb q 0 then Qceiling q else Qfloor q.

(** [a % b]: the remainder has the sign of the dividend. *)
Definition rem (a b : number) : number :=
  match a, b with
  | Fin x, Fin y =>
      if Qc_eqb y 0 then NaN
      else Fin (x - y * Q2Qc (inject_Z (Qc_trunc (x / y))))%Qc
  | Fin _, PInf | Fin _, NInf => a
  | _, _ => NaN
  end.

Declare Scope number_scope.
Delimit Scope number_scope with num.
Bind Scope number_scope with number.
Infix "+" := add : number_scope.
Infix "-" := sub : number_scope.
Infix "*" := mul : number_scope.
Infix "/" := div : number_scope.
Infix "%%" := rem (at level 40, left associativity) : number_scope.
Infix "<?" := lt : number_scope.
Infix "<=?" := le : number_scope.
Infix ">?" := gt : number_scope.
Infix "===" := strict_eq (at level 70, no associativity) : number_scope.

Local Open Scope string_scope.
Local Open Scope number_scope.

(** *** [Number.prototype.toFixed] *)

Fixpoint zeros (n : nat) : string :=
  match n with
  | O => ""
  | S k => "0" ++ zeros k
  end.

Definition digits (n : Z) : string :=
  NilEmpty.string_of_uint (N.to_uint (Z.to_N n)).

(** Steps 8 to 10 of [toFixed] for a value [0 <= a < 10^21]: [n] is the
    integer nearest to [a * 10^f], the larger one on a tie. *)
Definition fixed_digits (a : Qc) (f : nat) : string :=
  let n := Qfloor (a * Q2Qc (inject_Z (10 ^ Z.of_nat f)) + Q2Qc (1 # 2))%Qc in
  let m := digits n in
  match f with
  | O => m
  | _ =>
      let m := if (String.length m <=? f)%nat
               then zeros (f + 1 - String.length m) ++ m else m in
      let k := String.length m in
      substring 0 (k - f) m ++ "." ++ substring (k - f) f m
  end.

(** [large] stands for [Number::toString] on magnitudes of [10^21] and more,
    whose digits are those of the binary64 value. *)
Definition toFixed (large : Qc -> string) (a : number) (f : nat) : string :=
  match a with
  | NaN => "NaN"
  | PInf => "Infinity"
  | NInf => "-Infinity"
  | Fin q =>
      let s := if Qc_ltb q 0 then "-" else "" in
      let x := if Qc_ltb q 0 then (- q)%Qc else q in
      if Qc_leb (Q2Qc (inject_Z (10 ^ 21))) x
      then s ++ large x
      else s ++ fixed_digits x f
  end.

(** ** Arrays and loops *)

(** [arr[k]] for a number [k]: [undefined] unless [k] is a non-negative
    integer below the length. *)
Definition array_get {A : Type} (arr : list A) (k : number) : option A :=
  match k with
  | Fin q =>
      if Qc_eqb (Q2Qc (inject_Z (Qfloor q))) q && (0 <=? Qfloor q)%Z
      then nth_error arr (Z.to_nat (Qfloor q))
      else None
  | _ => None
  end.

Definition array_length {A : Type} (arr : list A) : number :=
  of_nat (List.length arr).

Inductive integer_or_infinity : Type :=
| Int (z : Z)
| PosInf
| NegInf.

Definition ToIntegerOrInfinity (a : number) : integer_or_infinity :=
  match a with
  | NaN => Int 0
  | PInf => PosInf
  | NInf => NegInf
  | Fin q => Int (Qc_trunc q)
  end.

(** The clamping of a relative index done by [Array.prototype.slice]. *)
Definition relative_index (len : Z) (a : number) : Z :=
  match ToIntegerOrInfinity a with
  | NegInf => 0
  | PosInf => len
  | Int z => if (z <? 0)%Z then Z.max (len + z) 0 else Z.min z len
  end.

(** [arr.slice(start, end)]; [end_ = None] is the one-argument call. *)
Definition slice {A : Type} (arr : list A) (start : number) (end_ : option number)
  : list A :=
  let len := Z.of_nat (List.length arr) in
  let k := relative_index len start in
  let final := match end_ with
               | None => len
               | Some e => relative_index len e
               end in
  firstn (Z.to_nat (Z.max (final - k) 0)) (skipn (Z.to_nat k) arr).

(** The values taken by [i] in [for (let i = 0; i < bound; i++)].  An
    infinite bound gives a loop that never ends. *)
Definition for_lt (bound : number) : outcome (list number) :=
  match bound with
  | PInf => Diverges
  | Fin q => Returns (map of_nat (seq 0 (Z.to_nat (Qceiling q))))
  | _ => Returns []
  end.

(** The values taken by [d] in [for (let d = 0; d <= bound; d++)]. *)
Definition for_le (bound : number) : outcome (list number) :=
  match bound with
  | PInf => Diverges
  | Fin q => Returns (map of_nat (seq 0 (Z.to_nat (Qfloor q + 1))))
  | _ => Returns []
  end.

(** ** three.js: [Vector2], [SplineCurve] *)

Module THREE.

Record Vector2 : Type := { x : number; y : number }.

(** Modelled from the spec: three.js is a dependency and its source is not
    under src/.  Section 4.4 asks for a uniform Catmull-Rom interpolation
    through the control points that returns [resolution + 1] points; the three
    definitions below are that interpolation as three.js writes it
    ([CatmullRom] of Interpolations.js, [SplineCurve.getPoint] and
    [Curve.getPoints]). *)
Definition CatmullRom (t p0 p1 p2 p3 : number) : number :=
  let v0 := (p2 - p0) * frac 1 2 in
  let v1 := (p3 - p1) * frac 1 2 in
  let t2 := t * t in
  let t3 := t * t2 in
  (of_Z 2 * p1 - of_Z 2 * p2 + v0 + v1) * t3
  + (of_Z (-3) * p1 + of_Z 3 * p2 - of_Z 2 * v0 - v1) * t2
  + v0 * t + p1.

(** Modelled from the spec: [SplineCurve.getPoint] of three.js (see
    [CatmullRom]).  Reading [.x] of an [undefined] array element throws. *)
Definition getPoint (points : list Vector2) (t : number) : outcome Vector2 :=
  let len := array_length points in
  let p := (len - of_Z 1) * t in
  let intPoint := Math_floor p in
  let weight := p - intPoint in
  let p0 := array_get points
              (if intPoint === of_Z 0 then intPoint else intPoint - of_Z 1) in
  let p1 := array_get points intPoint in
  let p2 := array_get points
              (if intPoint >? len - of_Z 2 then len - of_Z 1
               else intPoint + of_Z 1) in
  let p3 := array_get points
              (if intPoint >? len - of_Z 3 then len - of_Z 1
               else intPoint + of_Z 2) in
  q0 <- property p0 ;;
  q1 <- property p1 ;;
  q2 <- property p2 ;;
  q3 <- property p3 ;;
  Returns {| x := CatmullRom weight (x q0) (x q1) (x q2) (x q3);
             y := CatmullRom weight (y q0) (y q1) (y q2) (y q3) |}.

(** Modelled from the spec: [Curve.getPoints] of three.js (see
    [CatmullRom]). *)
Definition getPoints (points : list Vector2) (divisions : number)
  : outcome (list Vector2) :=
  ds <- for_le divisions ;;
  for_each (fun d => getPoint points (d / divisions)) ds.

End THREE.

Import THREE.

(** ** Data model ([types.ts]) *)

Record RibParams : Type := {
  height : number;
  minDepth : number;
  maxDepth : number;
  thickness : number;
  count : number;
  spacing : number;
  frequency : number;
  phase : number;
  waveType : number;
  controlPoints : number;
  displayResolution : number;
  color : string;
  ceilingRun : number
}.

(** The two optional fields are [None] when the property is absent. *)
Module RibProfile.
Record t : Type := {
  index : number;
  profile : list Vector2;
  controlPoints : list Vector2;
  height : number;
  thickness : number;
  ceilingProfile : option (list Vector2);
  ceilingRun : option number
}.
End RibProfile.

Inductive InstallationMode : Type :=
| wall
| ceiling
| both.

Definition PRICE_PER_SF : number := of_Z 45.
Definition PRICE_LED_PER_LF : number := of_Z 30.
Definition SHEET_WIDTH : number := of_Z 48.
Definition SHEET_HEIGHT : number := of_Z 144.
Definition SHEET_PRICE : number := of_Z 1800.

(** ** Image sampling *)

(** The decoded raster: [imageCanvas.width], [imageCanvas.height] and the
    RGBA bytes of [imageData.data]. *)
Module Image.
Record t : Type := {
  width : N;
  height : N;
  data : list byte
}.
End Image.

(** [data[idx]] used as an operand: an [undefined] element becomes [NaN]. *)
Definition data_at (data : list byte) (idx : number) : number :=
  match array_get data idx with
  | Some b => of_N (Byte.to_N b)
  | None => NaN
  end.

Definition sampleImageBrightness (imageData : option Image.t)
  (u v imageScale : number) : number :=
  match imageData with
  | None => frac 1 2
  | Some img =>
      let su := (u / imageScale) %% of_Z 1 in
      let sv := (v / imageScale) %% of_Z 1 in
      let su := if su <? of_Z 0 then su + of_Z 1 else su in
      let sv := if sv <? of_Z 0 then sv + of_Z 1 else sv in
      let px := Math_floor (su * (of_N (Image.width img) - of_Z 1)) in
      let py := Math_floor ((of_Z 1 - sv) * (of_N (Image.height img) - of_Z 1)) in
      let idx := (py * of_N (Image.width img) + px) * of_Z 4 in
      let r := data_at (Image.data img) idx in
      let g := data_at (Image.data img) (idx + of_Z 1) in
      let b := data_at (Image.data img) (idx + of_Z 2) in
      (frac 299 1000 * r + frac 587 1000 * g + frac 114 1000 * b) / of_Z 255
  end.

(** ** The engine ([engine/ribEngine.ts]) *)

Definition nl : string := String (ascii_of_nat 10) EmptyString.

(** The text made of the given lines, each ended by a line feed. *)
Definition lines (l : list string) : string :=
  String.concat "" (map (fun s => s ++ nl) l).

Section Engine.

(** [Math.sin] and [Math.asin] are left to the host by ECMAScript, and so
    is the digit string of a very large number. *)
Variables Math_sin Math_asin : number -> number.
Variable Number_toString : Qc -> string.

(** The module-level [imageData] (set together with [imageCanvas]). *)
Variable imageData : option Image.t.

Definition waveFunction (t frequency waveType phaseShift : number) : number :=
  let angle := t * frequency * Math_PI * of_Z 2 + phaseShift in
  if waveType === of_Z 0 then Math_sin angle
  else if waveType === of_Z 1 then Math_sin angle * Math_abs (Math_sin angle)
  else if waveType === of_Z 2 then Math_asin (Math_sin angle) / (Math_PI / of_Z 2)
  else Math_sin angle.

(** The depth of one control point at normalised position [t]; the loop
    bodies of [generateControlPoints] and [generateControlPointsLPath] share
    it word for word. *)
Definition sample_depth (params : RibParams) (ribIndex imageScale t : number)
  : number :=
  let depthRange := maxDepth params - minDepth params in
  let phaseShift := ribIndex * phase params * Math_PI * of_Z 2 in
  match imageData with
  | Some _ =>
      let u := if count params >? of_Z 1
               then ribIndex / (count params - of_Z 1) else frac 1 2 in
      let brightness := sampleImageBrightness imageData u t imageScale in
      minDepth params + brightness * depthRange
  | None =>
      let wave := waveFunction t (frequency params) (waveType params) phaseShift in
      minDepth params + (wave + of_Z 1) / of_Z 2 * depthRange
  end.

Definition generateControlPoints (params : RibParams) (ribIndex imageScale : number)
  : outcome (list Vector2) :=
  ixs <- for_lt (controlPoints params) ;;
  Returns (map (fun i =>
                  let t := i / (controlPoints params - of_Z 1) in
                  let y := t * height params in
                  {| x := sample_depth params ribIndex imageScale t; y := y |})
               ixs).

Definition generateControlPointsLPath (params : RibParams)
  (ribIndex totalPath imageScale : number) : outcome (list Vector2) :=
  let numPts := Math_round (controlPoints params * (totalPath / height params)) in
  ixs <- for_lt numPts ;;
  Returns (map (fun i =>
                  let t := i / (numPts - of_Z 1) in
                  let y := t * totalPath in
                  {| x := sample_depth params ribIndex imageScale t; y := y |})
               ixs).

Definition evaluateSplineCurve (controlPoints : list Vector2) (resolution : number)
  : outcome (list Vector2) :=
  THREE.getPoints controlPoints resolution.

Record RibProfiles : Type := {
  ribProfiles : list RibProfile.t;
  ceilingProfilesArr : list (list Vector2)
}.

(** [params.minDepth = ...; params.maxDepth = ...]. *)
Definition assign_depths (params : RibParams) (mn mx : number) : RibParams :=
  {| height := height params; minDepth := mn; maxDepth := mx;
     thickness := thickness params; count := count params;
     spacing := spacing params; frequency := frequency params;
     phase := phase params; waveType := waveType params;
     controlPoints := controlPoints params;
     displayResolution := displayResolution params;
     color := color params; ceilingRun := ceilingRun params |}.

Definition plain (p : Vector2) : Vector2 := {| x := x p; y := y p |}.

(** One turn of the loop of [generateRibProfiles]: the record pushed on
    [ribProfiles] and what is pushed on [ceilingProfilesArr]. *)
Definition rib_iteration (params : RibParams) (installationMode : InstallationMode)
  (imageScale : number) (i : number)
  : outcome (RibProfile.t * list (list Vector2)) :=
  r <- match installationMode with
       | both =>
           let ceilingRun := ceilingRun params in
           let totalPath := height params + ceilingRun in
           fullControlPoints <-
             generateControlPointsLPath params i totalPath imageScale ;;
           let totalRes :=
             Math_round (displayResolution params * (totalPath / height params)) in
           fullProfile <- evaluateSplineCurve fullControlPoints totalRes ;;
           let splitIndex :=
             Math_round (height params / totalPath * array_length fullProfile) in
           let profile := slice fullProfile (of_Z 0) (Some (splitIndex + of_Z 1)) in
           let controlPts :=
             filter (fun p => y p <=? height params) fullControlPoints in
           Returns (profile, controlPts,
                    [map (fun p => {| x := x p; y := y p - height params |})
                         (slice fullProfile splitIndex None)])
       | _ =>
           controlPts <- generateControlPoints params i imageScale ;;
           profile <- evaluateSplineCurve controlPts (displayResolution params) ;;
           Returns (profile, controlPts, [])
       end ;;
  let '(profile, controlPts, pushed) := r in
  Returns ({| RibProfile.index := i;
              RibProfile.profile := map plain profile;
              RibProfile.controlPoints := map plain controlPts;
              RibProfile.height := height params;
              RibProfile.thickness := thickness params;
              RibProfile.ceilingProfile := None;
              RibProfile.ceilingRun := None |}, pushed).

(** The first component is the argument object after the call: its two
    depth fields have been overwritten before the loop starts. *)
Definition generateRibProfiles (params : RibParams)
  (installationMode : InstallationMode) (imageScale : number)
  : RibParams * outcome RibProfiles :=
  let actualMinDepth := Math_min (minDepth params) (maxDepth params) in
  let actualMaxDepth := Math_max (minDepth params) (maxDepth params) in
  let params := assign_depths params actualMinDepth actualMaxDepth in
  (params,
   ixs <- for_lt (count params) ;;
   rs <- for_each (rib_iteration params installationMode imageScale) ixs ;;
   Returns {| ribProfiles := map fst rs;
              ceilingProfilesArr := List.concat (map snd rs) |}).

(** *** DXF export *)

Definition toFixed6 (a : number) : string := toFixed Number_toString a 6.

Definition dxf_vertex (offsetX : number) (point : Vector2) : string :=
  lines ["0"; "VERTEX"; "8"; "CURVES"]
  ++ lines ["10"; toFixed6 (offsetX + x point); "20"; toFixed6 (y point);
            "30"; "0.0"; "70"; "8"].

(** The four entity groups of one rib, as the body of
    [ribProfiles.forEach] appends them to [dxf]. *)
Definition dxf_entities (height offsetX : number) (profile : list Vector2)
  (firstPoint lastPoint : Vector2) : string :=
  lines ["0"; "LINE"; "8"; "LINES"]
  ++ lines ["10"; toFixed6 offsetX; "20"; "0.0"; "30"; "0.0"]
  ++ lines ["11"; toFixed6 (offsetX + x firstPoint); "21"; toFixed6 (y firstPoint);
            "31"; "0.0"]
  ++ lines ["0"; "POLYLINE"; "8"; "CURVES"; "66"; "1"; "70"; "4"]
  ++ String.concat "" (map (dxf_vertex offsetX) profile)
  ++ lines ["0"; "SEQEND"; "8"; "CURVES"]
  ++ lines ["0"; "LINE"; "8"; "LINES"]
  ++ lines ["10"; toFixed6 (offsetX + x lastPoint); "20"; toFixed6 (y lastPoint);
            "30"; "0.0"]
  ++ lines ["11"; toFixed6 offsetX; "21"; toFixed6 height; "31"; "0.0"]
  ++ lines ["0"; "LINE"; "8"; "LINES"]
  ++ lines ["10"; toFixed6 offsetX; "20"; toFixed6 height; "30"; "0.0"]
  ++ lines ["11"; toFixed6 offsetX; "21"; "0.0"; "31"; "0.0"].

(** One turn of [ribProfiles.forEach].  [firstPoint.x] and [lastPoint.x]
    throw when [profile[0]] or [profile[profile.length - 1]] is
    [undefined]. *)
Definition dxf_rib (height dxfSpacing : number) (rib : RibProfile.t)
  (ribIndex : number) : outcome string :=
  let offsetX := ribIndex * dxfSpacing in
  let profile := RibProfile.profile rib in
  let firstPoint := array_get profile (of_Z 0) in
  let lastPoint := array_get profile (array_length profile - of_Z 1) in
  first <- property firstPoint ;;
  last <- property lastPoint ;;
  Returns (dxf_entities height offsetX profile first last).

Definition dxf_prologue : string :=
  lines ["0"; "SECTION"; "2"; "HEADER"]
  ++ lines ["9"; "$ACADVER"; "1"; "AC1009"]
  ++ lines ["9"; "$INSUNITS"; "70"; "1"]
  ++ lines ["0"; "ENDSEC"]
  ++ lines ["0"; "SECTION"; "2"; "TABLES"]
  ++ lines ["0"; "TABLE"; "2"; "LAYER"; "70"; "2"]
  ++ lines ["0"; "LAYER"; "2"; "CURVES"; "70"; "0"; "62"; "5"; "6"; "CONTINUOUS"]
  ++ lines ["0"; "LAYER"; "2"; "LINES"; "70"; "0"; "62"; "7"; "6"; "CONTINUOUS"]
  ++ lines ["0"; "ENDTAB"]
  ++ lines ["0"; "ENDSEC"]
  ++ lines ["0"; "SECTION"; "2"; "ENTITIES"].

Definition dxf_epilogue : string := lines ["0"; "ENDSEC"; "0"; "EOF"].

(** Each rib with its position in the array, as [forEach] passes them. *)
Definition indexed {A : Type} (arr : list A) : list (A * number) :=
  combine arr (map of_nat (seq 0 (List.length arr))).

Definition exportDXF (ribProfiles : list RibProfile.t) (params : RibParams)
  : outcome string :=
  let height := height params in
  let maxDepth := maxDepth params in
  let dxfSpacing := maxDepth * frac 12 10 in
  groups <- for_each (fun '(rib, ribIndex) => dxf_rib height dxfSpacing rib ribIndex)
                     (indexed ribProfiles) ;;
  Returns (dxf_prologue ++ String.concat "" groups ++ dxf_epilogue).

(** *** Pricing *)

Record PricingResult : Type := {
  totalWidth : number;
  ribLength : number;
  totalSurfaceAreaSqFt : number;
  ribPrice : number;
  ledLinearFeet : number;
  ledPrice : number;
  totalPrice : number;
  ribsPerSheet : number;
  sectionsPerRib : number;
  sheetsNeeded : number;
  sheetTotalCost : number;
  wallCoverage : string
}.

Definition toFixed1 (a : number) : string := toFixed Number_toString a 1.

(** The first component is the argument object after the call; no statement
    of the function assigns to it. *)
Definition calculatePricing (params : RibParams)
  (installationMode : InstallationMode) (ledEnabled : bool)
  : RibParams * PricingResult :=
  let totalWidth := (count params - of_Z 1) * spacing params in
  let ribLength := match installationMode with
                   | both => height params + ceilingRun params
                   | _ => height params
                   end in
  let surfaceAreaPerRibSqIn := ribLength * maxDepth params in
  let surfaceAreaPerRibSqFt := surfaceAreaPerRibSqIn / of_Z 144 in
  let totalSurfaceAreaSqFt := surfaceAreaPerRibSqFt * count params in
  let ribPrice := totalSurfaceAreaSqFt * PRICE_PER_SF in
  let ledLinearFeet := ribLength / of_Z 12 * count params in
  let ledPrice := ledLinearFeet * PRICE_LED_PER_LF in
  let totalPrice := ribPrice + (if ledEnabled then ledPrice else of_Z 0) in
  let ribsPerSheet := Math_floor (SHEET_WIDTH / maxDepth params) in
  let sectionsPerRib := Math_ceil (ribLength / SHEET_HEIGHT) in
  let totalSlots := count params * sectionsPerRib in
  let sheetsNeeded := Math_ceil (totalSlots / Math_max ribsPerSheet (of_Z 1)) in
  let sheetTotalCost := sheetsNeeded * SHEET_PRICE in
  let wallCoverage :=
    match installationMode with
    | both =>
        toFixed1 (totalWidth / of_Z 12) ++ "' wide x "
        ++ toFixed1 (height params / of_Z 12) ++ "' wall + "
        ++ toFixed1 (ceilingRun params / of_Z 12) ++ "' ceiling"
    | _ =>
        toFixed1 (totalWidth / of_Z 12) ++ "' wide x "
        ++ toFixed1 (height params / of_Z 12) ++ "' tall"
    end in
  (params,
   {| totalWidth := totalWidth;
      ribLength := ribLength;
      totalSurfaceAreaSqFt := totalSurfaceAreaSqFt;
      ribPrice := ribPrice;
      ledLinearFeet := ledLinearFeet;
      ledPrice := ledPrice;
      totalPrice := totalPrice;
      ribsPerSheet := ribsPerSheet;
      sectionsPerRib := sectionsPerRib;
      sheetsNeeded := sheetsNeeded;
      sheetTotalCost := sheetTotalCost;
      wallCoverage := wallCoverage |}).

End Engine.

(** ** CSV export ([engine/ribEngine.ts], [ExportBar.tsx]) *)

Definition WAVE_TYPES : list string := ["Sine"; "Smooth"; "Sharp"].

Definition dquote : string := String (ascii_of_nat 34) EmptyString.

(** [Number::toString], as a template literal applies it.  An integer below
    [2^53] in magnitude is printed with its decimal digits; the digits of any
    other real are those of its binary64 value and are left to [host]. *)
Definition ToString (host : Qc -> string) (a : number) : string :=
  match a with
  | NaN => "NaN"
  | PInf => "Infinity"
  | NInf => "-Infinity"
  | Fin q =>
      let s := if Qc_ltb q 0 then "-" else "" in
      let m := if Qc_ltb q 0 then (- q)%Qc else q in
      if Qc_eqb (Q2Qc (inject_Z (Qfloor m))) m
         && Qc_ltb m (Q2Qc (inject_Z (2 ^ 53)))
      then s ++ digits (Qfloor m)
      else s ++ host m
  end.

Section Csv.

Variable Number_toString : Qc -> string.

Definition show (a : number) : string := ToString Number_toString a.
Definition toFixed2 (a : number) : string := toFixed Number_toString a 2.
Definition toFixed4 (a : number) : string := toFixed Number_toString a 4.

(** One turn of the loop of [exportCSV]: the row of rib [i]. *)
Definition csv_row (params : RibParams) (i : number) : string :=
  let phaseShift := i * phase params * Math_PI * of_Z 2 in
  lines [show i ++ "," ++ show (height params) ++ "," ++ show (minDepth params)
         ++ "," ++ show (maxDepth params) ++ "," ++ show (thickness params)
         ++ "," ++ toFixed4 phaseShift].

Definition exportCSV (params : RibParams) (installationMode : InstallationMode)
  (ledEnabled : bool) : outcome string :=
  ixs <- for_lt (count params) ;;
  let csv :=
    lines ["Rib Index,Height (in),Min Depth (in),Max Depth (in),Thickness (in),Phase Shift (rad)"]
    ++ String.concat "" (map (csv_row params) ixs) in
  let csv := csv ++ lines [""; "Array Settings"] in
  let csv := csv ++ lines ["Total Ribs," ++ show (count params)] in
  let csv := csv ++ lines ["Spacing," ++ show (spacing params) ++ dquote] in
  let csv := csv ++ lines ["Total Width,"
                           ++ toFixed2 ((count params - of_Z 1) * spacing params)
                           ++ dquote] in
  let csv := csv ++ lines ["Wave Frequency," ++ show (frequency params)] in
  let csv := csv ++ lines ["Wave Type,"
                           ++ match array_get WAVE_TYPES (waveType params) with
                              | Some name => name
                              | None => "undefined"
                              end] in
  let csv := csv ++ lines ["Control Points," ++ show (controlPoints params)] in
  let csv := csv ++ lines ["Display Resolution," ++ show (displayResolution params)] in
  let ribLength := match installationMode with
                   | both => height params + ceilingRun params
                   | _ => height params
                   end in
  let surfaceAreaPerRibSqFt := ribLength * maxDepth params / of_Z 144 in
  let totalSurfaceAreaSqFt := surfaceAreaPerRibSqFt * count params in
  let ribPrice := totalSurfaceAreaSqFt * PRICE_PER_SF in
  let csv := csv ++ lines [""; "Pricing"] in
  let csv := csv ++ lines ["Surface Area per Rib,"
                           ++ toFixed2 surfaceAreaPerRibSqFt ++ " sf"] in
  let csv := csv ++ lines ["Total Surface Area,"
                           ++ toFixed2 totalSurfaceAreaSqFt ++ " sf"] in
  let csv := csv ++ lines ["Rib Price per SF,$" ++ show PRICE_PER_SF] in
  let csv := csv ++ lines ["Rib Total,$" ++ toFixed2 ribPrice] in
  let ledLinearFeet := ribLength / of_Z 12 * count params in
  let ledPrice := ledLinearFeet * PRICE_LED_PER_LF in
  let csv := csv ++ lines [""; "LED Lighting," ++ if ledEnabled then "Yes" else "No"] in
  let csv := if ledEnabled
             then csv
                  ++ lines ["LED Linear Feet," ++ toFixed2 ledLinearFeet ++ " lf"]
                  ++ lines ["LED Price per LF,$" ++ show PRICE_LED_PER_LF]
                  ++ lines ["LED Total,$" ++ toFixed2 ledPrice]
             else csv in
  let totalPrice := ribPrice + (if ledEnabled then ledPrice else of_Z 0) in
  let csv := csv ++ lines [""; "Grand Total,$" ++ toFixed2 totalPrice] in
  Returns csv.

(** The heading of the rib table. *)
Definition csv_heading : string :=
  "Rib Index,Height (in),Min Depth (in),Max Depth (in),Thickness (in),Phase Shift (rad)".

(** The price lines at the end of the CSV report, for given figures. *)
Definition csv_price_lines (led : bool) (r : PricingResult) : string :=
  lines ["Rib Total,$" ++ toFixed2 (ribPrice r)]
  ++ lines [""; "LED Lighting," ++ if led then "Yes" else "No"]
  ++ (if led
      then lines ["LED Linear Feet," ++ toFixed2 (ledLinearFeet r) ++ " lf"]
           ++ lines ["LED Price per LF,$30"]
           ++ lines ["LED Total,$" ++ toFixed2 (ledPrice r)]
      else "")
  ++ lines [""; "Grand Total,$" ++ toFixed2 (totalPrice r)].

(** What [downloadFile] is asked to save. *)
Record Download : Type := {
  content : string;
  filename : string;
  mimeType : string
}.

(** [handleExportDXF] of the export bar: nothing happens on an empty
    array; otherwise the document is handed to [downloadFile]. *)
Definition handleExportDXF (ribProfiles : list RibProfile.t) (params : RibParams)
  : outcome (option Download) :=
  match ribProfiles with
  | [] => Returns None
  | _ =>
      dxf <- exportDXF Number_toString ribProfiles params ;;
      Returns (Some {| content := dxf;
                       filename := "mr-walls-ribs.dxf";
                       mimeType := "application/dxf" |})
  end.

(** [handleExportCSV] of the export bar. *)
Definition handleExportCSV (params : RibParams) (installationMode : InstallationMode)
  (ledEnabled : bool) : outcome Download :=
  csv <- exportCSV params installationMode ledEnabled ;;
  Returns {| content := csv;
             filename := "mr-walls-ribs.csv";
             mimeType := "text/csv" |}.

End Csv.

(** ** Vocabulary of the statements *)

(** A number that is a real. *)
Definition finite (a : number) : Prop :=
  match a with Fin _ => True | _ => False end.

Definition finite_point (p : Vector2) : Prop := finite (x p) /\ finite (y p).

(** Leibniz equality of numbers, decided ([NaN] equals itself here). *)
Definition number_eqb (a b : number) : bool :=
  match a, b with
  | NaN, NaN | PInf, PInf | NInf, NInf => true
  | Fin x, Fin y => Qeq_bool x y
  | _, _ => false
  end.

(** The L-shaped run of mode [both] is well formed: a positive wall height
    and a ceiling run that is not negative. *)
Definition corner_ok (p : RibParams) (mode : InstallationMode) : Prop :=
  mode = both ->
  exists h cr, height p = Fin h /\ ceilingRun p = Fin cr
               /\ (0 < h)%Qc /\ (0 <= cr)%Qc.

(** A ceiling position: [height] subtracted. *)
Definition rebase (height : number) (q : Vector2) : Vector2 :=
  {| x := x q; y := y q - height |}.

(** The sizes for which the statements on the loops of the generator are
    made: a wall between 1 and 1000 high and a ceiling run of at most 1000
    in mode [both], next to at most 1000 ribs, control points and samples.
    At these sizes no quotient or product of the generator can overflow in
    binary64 and every loop bound stays far below the largest array length,
    however the operations round; the sliders of the application stay well
    inside them. *)
Definition corner_sized (p : RibParams) (mode : InstallationMode) : Prop :=
  mode = both ->
  exists h cr, height p = Fin h /\ ceilingRun p = Fin cr
               /\ (1 <= h)%Qc /\ (h <= Q2Qc (inject_Z 1000))%Qc
               /\ (0 <= cr)%Qc /\ (cr <= Q2Qc (inject_Z 1000))%Qc.

(** How the turn of the loop for rib [i] in mode [both] cuts the dense curve
    of that rib: [fullProfile] is what [evaluateSplineCurve] returns for the
    control points of the L-shaped run at the scaled resolution, the split
    index is [Math.round((height / totalPath) * fullProfile.length)], the
    record keeps the samples up to the split index and the segment holds the
    samples from the split index on, [height] subtracted from their
    positions. *)
Definition corner_cut (Math_sin Math_asin : number -> number)
  (imageData : option Image.t) (p : RibParams) (imageScale i : number)
  (rp : RibProfile.t) (segment : list Vector2) : Prop :=
  let totalPath := height p + ceilingRun p in
  let totalRes := Math_round (displayResolution p * (totalPath / height p)) in
  exists fullControlPoints fullProfile,
    generateControlPointsLPath Math_sin Math_asin imageData p i totalPath imageScale
    = Returns fullControlPoints
    /\ evaluateSplineCurve fullControlPoints totalRes = Returns fullProfile
    /\ let splitIndex :=
         Math_round (height p / totalPath * array_length fullProfile) in
       RibProfile.profile rp
       = map plain (slice fullProfile (of_Z 0) (Some (splitIndex + of_Z 1)))
       /\ RibProfile.controlPoints rp
          = map plain (filter (fun q => y q <=? height p) fullControlPoints)
       /\ segment = map (rebase (height p)) (slice fullProfile splitIndex None).

(** The parameters with [minDepth] and [maxDepth] exchanged. *)
Definition swap_depths (p : RibParams) : RibParams :=
  assign_depths p (maxDepth p) (minDepth p).

Definition with_count (p : RibParams) (n : number) : RibParams :=
  {| height := height p; minDepth := minDepth p; maxDepth := maxDepth p;
     thickness := thickness p; count := n;
     spacing := spacing p; frequency := frequency p;
     phase := phase p; waveType := waveType p;
     controlPoints := controlPoints p;
     displayResolution := displayResolution p;
     color := color p; ceilingRun := ceilingRun p |}.

(** Section 4.6 in the spec's words: the rib length and the sheet layout. *)
Definition spec_ribLength (p : RibParams) (mode : InstallationMode) : number :=
  match mode with
  | both => height p + ceilingRun p
  | _ => height p
  end.

Definition spec_ribsPerSheet (p : RibParams) : number :=
  Math_floor (of_Z 48 / maxDepth p).

Definition spec_sectionsPerRib (p : RibParams) (mode : InstallationMode) : number :=
  Math_ceil (spec_ribLength p mode / of_Z 144).

Definition spec_sheetsNeeded (p : RibParams) (mode : InstallationMode) : number :=
  Math_ceil (count p * spec_sectionsPerRib p mode
             / Math_max (spec_ribsPerSheet p) (of_Z 1)).

(** A rib whose profile is empty. *)
Definition no_points (rib : RibProfile.t) : bool :=
  match RibProfile.profile rib with
  | [] => true
  | _ => false
  end.

(** The text [exportDXF] emits for a rib with at least one point. *)
Definition rib_text (large : Qc -> string) (p : RibParams)
  (entry : RibProfile.t * number) : string :=
  let '(rib, ribIndex) := entry in
  let profile := RibProfile.profile rib in
  let origin := {| x := of_Z 0; y := of_Z 0 |} in
  dxf_entities large (height p) (ribIndex * (maxDepth p * frac 12 10)) profile
    (hd origin profile) (last profile origin).

(** *** Concrete inputs *)

(** Host functions for the closed examples; no statement below depends on
    the values chosen here. *)
Definition flat_sin (a : number) : number := of_Z 0.
Definition flat_asin (a : number) : number := of_Z 0.
Definition plain_toString (q : Qc) : string := digits (Qfloor q).

Definition px (n : N) : byte :=
  match Byte.of_N n with Some b => b | None => x00 end.

(** A 5 x 1 image of alternating black and white pixels. *)
Definition stripes : Image.t :=
  {| Image.width := 5; Image.height := 1;
     Image.data := map px [0; 0; 0; 255;  255; 255; 255; 255;  0; 0; 0; 255;
                           255; 255; 255; 255;  0; 0; 0; 255]%N |}.

(** The panel's defaults scaled down to a few samples. *)
Definition small_params : RibParams :=
  {| height := of_Z 144; minDepth := of_Z 4; maxDepth := of_Z 12;
     thickness := frac 3 4; count := of_Z 3; spacing := of_Z 6;
     frequency := of_Z 2; phase := frac 1 10; waveType := of_Z 0;
     controlPoints := of_Z 4; displayResolution := of_Z 6;
     color := "#ffffff"; ceilingRun := of_Z 96 |}.

Definition with_height (p : RibParams) (h : number) : RibParams :=
  {| height := h; minDepth := minDepth p; maxDepth := maxDepth p;
     thickness := thickness p; count := count p;
     spacing := spacing p; frequency := frequency p;
     phase := phase p; waveType := waveType p;
     controlPoints := controlPoints p;
     displayResolution := displayResolution p;
     color := color p; ceilingRun := ceilingRun p |}.

Definition with_controlPoints (p : RibParams) (c : number) : RibParams :=
  {| height := height p; minDepth := minDepth p; maxDepth := maxDepth p;
     thickness := thickness p; count := count p;
     spacing := spacing p; frequency := frequency p;
     phase := phase p; waveType := waveType p;
     controlPoints := c;
     displayResolution := displayResolution p;
     color := color p; ceilingRun := ceilingRun p |}.

(** The budget scenario of section 8. *)
Definition budget_params : RibParams :=
  {| height := of_Z 144; minDepth := of_Z 4; maxDepth := of_Z 12;
     thickness := frac 3 4; count := of_Z 40; spacing := of_Z 6;
     frequency := of_Z 2; phase := frac 1 10; waveType := of_Z 0;
     controlPoints := of_Z 20; displayResolution := of_Z 100;
     color := "#ffffff"; ceilingRun := of_Z 96 |}.

(** Depths that differ on a rib of length zero. *)
Definition zero_length_params : RibParams :=
  {| height := of_Z 0; minDepth := of_Z 30; maxDepth := of_Z 40;
     thickness := frac 3 4; count := of_Z 3; spacing := of_Z 6;
     frequency := of_Z 2; phase := frac 1 10; waveType := of_Z 0;
     controlPoints := of_Z 4; displayResolution := of_Z 6;
     color := "#ffffff"; ceilingRun := of_Z 96 |}.

Definition rib_of (i : Z) (profile : list Vector2) : RibProfile.t :=
  {| RibProfile.index := of_Z i;
     RibProfile.profile := profile;
     RibProfile.controlPoints := profile;
     RibProfile.height := of_Z 144;
     RibProfile.thickness := frac 3 4;
     RibProfile.ceilingProfile := None;
     RibProfile.ceilingRun := None |}.

Definition pt (a b : Z) : Vector2 := {| x := of_Z a; y := of_Z b |}.

(** The lines of a text, and how many of them equal [l]. *)
Fixpoint split_lines (current : string) (s : string) : list string :=
  match s with
  | EmptyString => match current with EmptyString => [] | _ => [current] end
  | String c s' =>
      if Ascii.eqb c (ascii_of_nat 10) then current :: split_lines "" s'
      else split_lines (current ++ String c EmptyString) s'
  end.

Definition count_lines (l : string) (s : string) : nat :=
  List.length (filter (String.eqb l) (split_lines "" s)).

Definition count_lines_of (l : string) (o : outcome string) : option nat :=
  match o with
  | Returns s => Some (count_lines l s)
  | _ => None
  end.

(** *** Vocabulary of the further properties *)

Definition InstallationMode_eq_dec (a b : InstallationMode) : {a = b} + {a <> b}.
Proof. decide equality. Defined.

(** A decoded raster: at least one pixel each way, four bytes a pixel, and
    fewer than [2^53] bytes, as every array has. *)
Definition well_formed_image (img : Image.t) : Prop :=
  (1 <= Image.width img)%N /\ (1 <= Image.height img)%N
  /\ List.length (Image.data img)
     = N.to_nat (4 * Image.width img * Image.height img)
  /\ (4 * Image.width img * Image.height img < 2 ^ 53)%N.

(** Coordinates of ordinary size, and a scale that is not tiny: the
    quotient of such a coordinate by such a scale cannot overflow. *)
Definition moderate (q : Qc) : Prop :=
  (- Q2Qc (inject_Z 1000000) <= q)%Qc /\ (q <= Q2Qc (inject_Z 1000000))%Qc.

Definition not_tiny (q : Qc) : Prop :=
  (q <= - Q2Qc (1 # 1000000))%Qc \/ (Q2Qc (1 # 1000000) <= q)%Qc.

(** What the engine may expect of the host: a sine between -1 and 1 on the
    reals, an arcsine between [-Math.PI/2] and [Math.PI/2] on [[-1, 1]]. *)
Definition sin_bounded (f : number -> number) : Prop :=
  forall a, finite a -> (Math_abs (f a) <=? of_Z 1) = true.

Definition asin_bounded (f : number -> number) : Prop :=
  forall q, (- (1) <= q)%Qc -> (q <= 1)%Qc ->
            (Math_abs (f (Fin q)) <=? Math_PI / of_Z 2) = true.

(** The normalised position of sample [i] out of [c]. *)
Definition fraction (i : nat) (c : Z) : Qc :=
  (Q2Qc (inject_Z (Z.of_nat i)) / Q2Qc (inject_Z (c - 1)))%Qc.

(** What is required of each record of a straight run. *)
Definition straight_rib (p : RibParams) (c r : Z) (rp : RibProfile.t) : Prop :=
  List.length (RibProfile.profile rp) = (Z.to_nat r + 1)%nat
  /\ List.length (RibProfile.controlPoints rp) = Z.to_nat c
  /\ option_map y (nth_error (RibProfile.profile rp) 0) = Some (of_Z 0)
  /\ option_map y (nth_error (RibProfile.profile rp) (Z.to_nat r))
     = Some (height p).

(** How the wall profile and the ceiling segment of one rib share the dense
    curve of the L-shaped run, which has more than [r] samples: when the
    segment is not empty the last sample of the profile is the corner, the
    segment starts at the corner with [height] subtracted, and the two hold
    one sample more than the curve; when the segment is empty the profile is
    the whole curve. *)
Definition corner_overlap (p : RibParams) (r : Z) (rp : RibProfile.t)
  (segment : list Vector2) : Prop :=
  (segment <> [] ->
   (Z.to_nat r + 2
    <= List.length (RibProfile.profile rp) + List.length segment)%nat
   /\ exists corner,
        nth_error (RibProfile.profile rp) (List.length (RibProfile.profile rp) - 1)
        = Some corner
        /\ nth_error segment 0 = Some (rebase (height p) corner))
  /\ (segment = [] ->
      (Z.to_nat r + 1 <= List.length (RibProfile.profile rp))%nat).

(** *** Reading a DXF text back *)

Fixpoint no_newline (s : string) : bool :=
  match s with
  | EmptyString => true
  | String c s' => negb (Ascii.eqb c (ascii_of_nat 10)) && no_newline s'
  end.

(** A DXF text is a sequence of groups: a line with the group code, then a
    line with the value.  Group code [0] starts an entity (or a section
    marker) and its value is the name.  The names of a text that is not a
    sequence of groups are [None]. *)
Fixpoint entity_names (ls : list string) : option (list string) :=
  match ls with
  | [] => Some []
  | code :: value :: rest =>
      match entity_names rest with
      | Some names => Some (if String.eqb code "0" then value :: names else names)
      | None => None
      end
  | [_] => None
  end.

Definition prologue_names : list string :=
  ["SECTION"; "ENDSEC"; "SECTION"; "TABLE"; "LAYER"; "LAYER"; "ENDTAB"; "ENDSEC";
   "SECTION"].

Definition rib_names (rib : RibProfile.t) : list string :=
  ["LINE"; "POLYLINE"]
  ++ repeat "VERTEX" (List.length (RibProfile.profile rib))
  ++ ["SEQEND"; "LINE"; "LINE"].

Definition epilogue_names : list string := ["ENDSEC"; "EOF"].

(** The lines of [dxf_vertex], of [rib_text], and of the fixed parts. *)
Definition vertex_lines (large : Qc -> string) (offsetX : number) (point : Vector2)
  : list string :=
  ["0"; "VERTEX"; "8"; "CURVES"]
  ++ ["10"; toFixed6 large (offsetX + x point); "20"; toFixed6 large (y point);
      "30"; "0.0"; "70"; "8"].

Definition entities_lines (large : Qc -> string) (height offsetX : number)
  (profile : list Vector2) (firstPoint lastPoint : Vector2) : list string :=
  ["0"; "LINE"; "8"; "LINES"]
  ++ ["10"; toFixed6 large offsetX; "20"; "0.0"; "30"; "0.0"]
  ++ ["11"; toFixed6 large (offsetX + x firstPoint); "21";
      toFixed6 large (y firstPoint); "31"; "0.0"]
  ++ ["0"; "POLYLINE"; "8"; "CURVES"; "66"; "1"; "70"; "4"]
  ++ flat_map (vertex_lines large offsetX) profile
  ++ ["0"; "SEQEND"; "8"; "CURVES"]
  ++ ["0"; "LINE"; "8"; "LINES"]
  ++ ["10"; toFixed6 large (offsetX + x lastPoint); "20";
      toFixed6 large (y lastPoint); "30"; "0.0"]
  ++ ["11"; toFixed6 large offsetX; "21"; toFixed6 large height; "31"; "0.0"]
  ++ ["0"; "LINE"; "8"; "LINES"]
  ++ ["10"; toFixed6 large offsetX; "20"; toFixed6 large height; "30"; "0.0"]
  ++ ["11"; toFixed6 large offsetX; "21"; "0.0"; "31"; "0.0"].

Definition rib_lines (large : Qc -> string) (p : RibParams)
  (entry : RibProfile.t * number) : list string :=
  let '(rib, ribIndex) := entry in
  let profile := RibProfile.profile rib in
  let origin := {| x := of_Z 0; y := of_Z 0 |} in
  entities_lines large (height p) (ribIndex * (maxDepth p * frac 12 10)) profile
    (hd origin profile) (last profile origin).

Definition prologue_lines : list string :=
  ["0"; "SECTION"; "2"; "HEADER"]
  ++ ["9"; "$ACADVER"; "1"; "AC1009"]
  ++ ["9"; "$INSUNITS"; "70"; "1"]
  ++ ["0"; "ENDSEC"]
  ++ ["0"; "SECTION"; "2"; "TABLES"]
  ++ ["0"; "TABLE"; "2"; "LAYER"; "70"; "2"]
  ++ ["0"; "LAYER"; "2"; "CURVES"; "70"; "0"; "62"; "5"; "6"; "CONTINUOUS"]
  ++ ["0"; "LAYER"; "2"; "LINES"; "70"; "0"; "62"; "7"; "6"; "CONTINUOUS"]
  ++ ["0"; "ENDTAB"]
  ++ ["0"; "ENDSEC"]
  ++ ["0"; "SECTION"; "2"; "ENTITIES"].

(** * Properties *)

(** ** Rational arithmetic toolkit *)

Lemma Qc_ltb_lt (a b : Qc) : Qc_ltb a b = true <-> (a < b)%Qc.
Proof.
  unfold Qc_ltb. rewrite Qclt_alt. destruct (a ?= b)%Qc; split; congruence.
Qed.

Lemma Qc_leb_le (a b : Qc) : Qc_leb a b = true <-> (a <= b)%Qc.
Proof.
  unfold Qc_leb. rewrite Qcle_alt. destruct (a ?= b)%Qc; split; congruence.
Qed.

Lemma Qc_eqb_eq (a b : Qc) : Qc_eqb a b = true <-> a = b.
Proof.
  unfold Qc_eqb. rewrite Qceq_alt. destruct (a ?= b)%Qc; split; congruence.
Qed.

Lemma this_Q2Qc (q : Q) : (this (Q2Qc q) == q)%Q.
Proof. simpl. apply Qred_correct. Qed.

Lemma this_Qcplus (a b : Qc) : (this (a + b)%Qc == this a + this b)%Q.
Proof. unfold Qcplus. apply this_Q2Qc. Qed.

Lemma this_Qcmult (a b : Qc) : (this (a * b)%Qc == this a * this b)%Q.
Proof. unfold Qcmult. apply this_Q2Qc. Qed.

Lemma Q2Qc_inject_Z_inj (a b : Z) : Q2Qc (inject_Z a) = Q2Qc (inject_Z b) -> a = b.
Proof.
  intros H. apply Q2Qc_eq_iff in H. unfold Qeq in H. simpl in H. lia.
Qed.

Lemma Qc_compare_inject_Z (a b : Z) :
  (Q2Qc (inject_Z a) ?= Q2Qc (inject_Z b))%Qc = (a ?= b)%Z.
Proof.
  unfold Qccompare. cbn [this Q2Qc]. rewrite <- Qred_compare.
  unfold Qcompare. simpl. rewrite !Z.mul_1_r. reflexivity.
Qed.

Lemma Qfloor_Q2Qc (q : Q) : Qfloor (Q2Qc q) = Qfloor q.
Proof. apply Qfloor_comp, this_Q2Qc. Qed.

Lemma Qceiling_Q2Qc (q : Q) : Qceiling (Q2Qc q) = Qceiling q.
Proof. apply Qceiling_comp, this_Q2Qc. Qed.

Lemma Q2Qc_plus (a b : Q) : (Q2Qc a + Q2Qc b)%Qc = Q2Qc (a + b).
Proof.
  apply Qc_is_canon. unfold Qcplus. rewrite !this_Q2Qc. reflexivity.
Qed.

Lemma Q2Qc_mult (a b : Q) : (Q2Qc a * Q2Qc b)%Qc = Q2Qc (a * b).
Proof.
  apply Qc_is_canon. unfold Qcmult. rewrite !this_Q2Qc. reflexivity.
Qed.

Lemma Q2Qc_opp (a : Q) : (- Q2Qc a)%Qc = Q2Qc (- a).
Proof.
  apply Qc_is_canon. unfold Qcopp. rewrite !this_Q2Qc. reflexivity.
Qed.

Lemma add_of_Z (a b : Z) : of_Z a + of_Z b = of_Z (a + b).
Proof.
  unfold of_Z, add. rewrite Q2Qc_plus. apply f_equal, Q2Qc_eq_iff.
  rewrite inject_Z_plus. reflexivity.
Qed.

Lemma sub_of_Z (a b : Z) : of_Z a - of_Z b = of_Z (a - b).
Proof.
  unfold of_Z, sub, add, neg. rewrite Q2Qc_opp, Q2Qc_plus.
  apply f_equal, Q2Qc_eq_iff. unfold Z.sub. rewrite inject_Z_plus, inject_Z_opp; reflexivity.
Qed.

Lemma mul_of_Z (a b : Z) : of_Z a * of_Z b = of_Z (a * b).
Proof.
  unfold of_Z, mul. rewrite Q2Qc_mult. apply f_equal, Q2Qc_eq_iff.
  rewrite inject_Z_mult. reflexivity.
Qed.

Lemma lt_of_Z (a b : Z) : (of_Z a <? of_Z b) = (a <? b)%Z.
Proof.
  unfold of_Z, lt, Qc_ltb. rewrite Qc_compare_inject_Z. reflexivity.
Qed.

Lemma gt_of_Z (a b : Z) : (of_Z a >? of_Z b) = (b <? a)%Z.
Proof. unfold gt. apply lt_of_Z. Qed.

Lemma strict_eq_of_Z (a b : Z) : (of_Z a === of_Z b) = (a =? b)%Z.
Proof.
  unfold of_Z, strict_eq, Qc_eqb. rewrite Qc_compare_inject_Z.
  symmetry. apply Z.eqb_compare.
Qed.

Lemma Math_floor_of_Z (a : Z) : Math_floor (of_Z a) = of_Z a.
Proof. unfold of_Z at 1, Math_floor. rewrite Qfloor_Q2Qc, Qfloor_Z. reflexivity. Qed.

Lemma array_get_of_Z {A : Type} (l : list A) (k : Z) :
  (0 <= k)%Z -> array_get l (of_Z k) = nth_error l (Z.to_nat k).
Proof.
  intros Hk. unfold array_get, of_Z. rewrite Qfloor_Q2Qc, Qfloor_Z.
  replace (Qc_eqb _ _) with true by (symmetry; apply Qc_eqb_eq; reflexivity).
  apply Z.leb_le in Hk. rewrite Hk. reflexivity.
Qed.

Lemma for_lt_of_Z (c : Z) :
  for_lt (of_Z c) = Returns (map of_nat (seq 0 (Z.to_nat c))).
Proof. unfold for_lt, of_Z. rewrite Qceiling_Q2Qc, Qceiling_Z. reflexivity. Qed.

Lemma for_le_of_Z (r : Z) :
  for_le (of_Z r) = Returns (map of_nat (seq 0 (Z.to_nat (r + 1)))).
Proof. unfold for_le, of_Z. rewrite Qfloor_Q2Qc, Qfloor_Z. reflexivity. Qed.

Lemma Fin_inj (x y : Qc) : Fin x = Fin y -> x = y.
Proof.
  intros H. exact (f_equal (fun a => match a with Fin q => q | _ => x end) H).
Qed.

(** ** Loops *)

Lemma for_each_returns {A B : Type} (f : A -> outcome B) (g : A -> B) (l : list A) :
  (forall a, In a l -> f a = Returns (g a)) -> for_each f l = Returns (map g l).
Proof.
  induction l as [|a l IH]; intros H; simpl; [reflexivity|].
  rewrite (H a (or_introl eq_refl)). simpl.
  rewrite IH by (intros; apply H; right; assumption). reflexivity.
Qed.

Lemma for_each_total {A B : Type} (f : A -> outcome B) (l : list A) :
  (forall a, In a l -> exists b, f a = Returns b) ->
  exists bs, for_each f l = Returns bs.
Proof.
  induction l as [|a l IH]; intros H; simpl; [eexists; reflexivity|].
  destruct (H a (or_introl eq_refl)) as [b Hb]. rewrite Hb. simpl.
  destruct IH as [bs Hbs]; [intros; apply H; right; assumption|].
  rewrite Hbs. simpl. eexists; reflexivity.
Qed.

Lemma for_each_Forall2 {A B : Type} (f : A -> outcome B) (l : list A) (bs : list B) :
  for_each f l = Returns bs -> Forall2 (fun a b => f a = Returns b) l bs.
Proof.
  revert bs. induction l as [|a l IH]; intros bs H; simpl in H.
  - inversion H. constructor.
  - destruct (f a) as [b| |] eqn:Hb; simpl in H; try discriminate.
    destruct (for_each f l) as [bs'| |]; simpl in H; try discriminate.
    inversion H; subst. constructor; auto.
Qed.

Lemma for_each_length {A B : Type} (f : A -> outcome B) (l : list A) (bs : list B) :
  for_each f l = Returns bs -> List.length bs = List.length l.
Proof.
  intros H. apply for_each_Forall2 in H. symmetry. eapply Forall2_length; eauto.
Qed.

(** ** The spline evaluator *)

Lemma array_length_of_Z {A : Type} (l : list A) :
  array_length l = of_Z (Z.of_nat (List.length l)).
Proof. reflexivity. Qed.

Lemma array_get_in_range {A : Type} (l : list A) (j : Z) :
  (0 <= j < Z.of_nat (List.length l))%Z ->
  exists a, array_get l (of_Z j) = Some a.
Proof.
  intros [H0 H1]. rewrite array_get_of_Z by assumption.
  destruct (nth_error l (Z.to_nat j)) as [a|] eqn:E; [eexists; reflexivity|].
  apply nth_error_None in E. lia.
Qed.

Lemma floor_scaled_bounds (m : Z) (q : Qc) :
  (0 <= m)%Z -> (0 <= q)%Qc -> (q <= 1)%Qc ->
  (0 <= Qfloor (Q2Qc (inject_Z m) * q)%Qc <= m)%Z.
Proof.
  intros Hm H0 H1. unfold Qcle in H0, H1. simpl in H0, H1.
  assert (E : (this (Q2Qc (inject_Z m) * q)%Qc == inject_Z m * this q)%Q).
  { unfold Qcmult. rewrite !this_Q2Qc. reflexivity. }
  rewrite (Qfloor_comp _ _ E).
  assert (Hm' : (0 <= inject_Z m)%Q) by (unfold Qle; simpl; lia).
  split.
  - rewrite <- (Qfloor_Z 0). apply Qfloor_resp_le.
    change (inject_Z 0) with 0%Q. apply Qmult_le_0_compat; assumption.
  - rewrite <- (Qfloor_Z m) at 2. apply Qfloor_resp_le.
    apply Qle_trans with (1 * inject_Z m)%Q.
    + rewrite (Qmult_comm (inject_Z m)). apply Qmult_le_compat_r; assumption.
    + rewrite Qmult_1_l. apply Qle_refl.
Qed.

Lemma getPoint_unfold (points : list Vector2) (t : number) (k : Z) :
  let n := Z.of_nat (List.length points) in
  Math_floor ((array_length points - of_Z 1) * t) = of_Z k ->
  getPoint points t =
    (q0 <- property (array_get points (of_Z (if (k =? 0)%Z then k else k - 1))) ;;
     q1 <- property (array_get points (of_Z k)) ;;
     q2 <- property (array_get points
                       (of_Z (if (n - 2 <? k)%Z then n - 1 else k + 1))) ;;
     q3 <- property (array_get points
                       (of_Z (if (n - 3 <? k)%Z then n - 1 else k + 2))) ;;
     let weight := (array_length points - of_Z 1) * t - of_Z k in
     Returns {| x := CatmullRom weight (x q0) (x q1) (x q2) (x q3);
                y := CatmullRom weight (y q0) (y q1) (y q2) (y q3) |}).
Proof.
  intros n H. unfold getPoint. cbv zeta. rewrite H.
  rewrite array_length_of_Z. fold n.
  rewrite !sub_of_Z, !add_of_Z, strict_eq_of_Z, !gt_of_Z.
  destruct (k =? 0)%Z, (n - 2 <? k)%Z, (n - 3 <? k)%Z; reflexivity.
Qed.

Lemma getPoint_returns (points : list Vector2) (q : Qc) :
  (1 <= List.length points)%nat -> (0 <= q)%Qc -> (q <= 1)%Qc ->
  exists pt, getPoint points (Fin q) = Returns pt.
Proof.
  intros Hn H0 H1.
  set (n := Z.of_nat (List.length points)).
  assert (Hn' : (1 <= n)%Z) by (unfold n; lia).
  set (k := Qfloor (Q2Qc (inject_Z (n - 1)) * q)%Qc).
  assert (Hk : (0 <= k <= n - 1)%Z)
    by (apply floor_scaled_bounds; try assumption; lia).
  assert (E : Math_floor ((array_length points - of_Z 1) * Fin q) = of_Z k).
  { rewrite array_length_of_Z. fold n. rewrite sub_of_Z. reflexivity. }
  rewrite (getPoint_unfold _ _ E). fold n.
  destruct (array_get_in_range points (j := if (k =? 0)%Z then k else k - 1))
    as [q0 E0]; [fold n; destruct (Z.eqb_spec k 0); lia|].
  destruct (array_get_in_range points (j := k)) as [q1 E1]; [fold n; lia|].
  destruct (array_get_in_range points (j := if (n - 2 <? k)%Z then n - 1 else k + 1))
    as [q2 E2]; [fold n; destruct (Z.ltb_spec (n - 2) k); lia|].
  destruct (array_get_in_range points (j := if (n - 3 <? k)%Z then n - 1 else k + 2))
    as [q3 E3]; [fold n; destruct (Z.ltb_spec (n - 3) k); lia|].
  rewrite E0, E1, E2, E3. simpl. eexists; reflexivity.
Qed.

Lemma this_Qcdiv (a b : Qc) : (this (a / b)%Qc == this a / this b)%Q.
Proof.
  unfold Qcdiv, Qcmult, Qcinv. rewrite !this_Q2Qc. reflexivity.
Qed.

Lemma of_Z_nonzero (r : Z) : r <> 0%Z -> Qc_eqb (Q2Qc (inject_Z r)) 0 = false.
Proof.
  intros Hr. destruct (Qc_eqb _ _) eqn:E; [|reflexivity].
  apply Qc_eqb_eq in E. apply (@Q2Qc_inject_Z_inj r 0) in E. contradiction.
Qed.

Lemma div_of_Z_unit (d r : Z) :
  (0 <= d <= r)%Z -> (1 <= r)%Z ->
  exists q, of_Z d / of_Z r = Fin q /\ (0 <= q)%Qc /\ (q <= 1)%Qc.
Proof.
  intros Hd Hr. unfold of_Z, div. rewrite of_Z_nonzero by lia.
  eexists; split; [reflexivity|].
  assert (Hpos : (0 < inject_Z r)%Q) by (unfold Qlt; simpl; lia).
  unfold Qcle. rewrite this_Qcdiv, !this_Q2Qc. split.
  - apply Qle_shift_div_l; [assumption|]. rewrite Qmult_0_l.
    change 0%Q with (inject_Z 0). rewrite <- Zle_Qle. lia.
  - apply Qle_shift_div_r; [assumption|]. rewrite Qmult_1_l.
    rewrite <- Zle_Qle. lia.
Qed.

Lemma div_of_Z_self (r : Z) : r <> 0%Z -> of_Z r / of_Z r = of_Z 1.
Proof.
  intros Hr. unfold of_Z, div. rewrite of_Z_nonzero by assumption.
  f_equal. apply Qc_is_canon. rewrite this_Qcdiv, !this_Q2Qc.
  apply Qmult_inv_r. intros E. apply Hr.
  unfold Qeq in E. simpl in E. lia.
Qed.

Lemma div_zero_of_Z (r : Z) : r <> 0%Z -> of_Z 0 / of_Z r = of_Z 0.
Proof.
  intros Hr. unfold of_Z, div. rewrite of_Z_nonzero by assumption.
  f_equal. apply Qc_is_canon. rewrite this_Qcdiv, !this_Q2Qc.
  unfold Qdiv. apply Qmult_0_l.
Qed.

Lemma CatmullRom_weight_0 (a b c d : Qc) :
  CatmullRom (of_Z 0) (Fin a) (Fin b) (Fin c) (Fin d) = Fin b.
Proof.
  unfold CatmullRom, of_Z, frac, sub, add, mul, neg. f_equal.
  change (Q2Qc (inject_Z 0)) with 0%Qc. ring.
Qed.

Lemma seq_map_of_nat_nth (n d : nat) :
  (d < n)%nat -> nth_error (map of_nat (seq 0 n)) d = Some (of_nat d).
Proof.
  intros H. rewrite nth_error_map, nth_error_seq.
  destruct (Nat.ltb_spec d n); [reflexivity|lia].
Qed.

Lemma Forall2_nth_error_l {A B : Type} (R : A -> B -> Prop) (l : list A) (l' : list B)
  (i : nat) (a : A) :
  Forall2 R l l' -> nth_error l i = Some a ->
  exists b, nth_error l' i = Some b /\ R a b.
Proof.
  intros H. revert i. induction H as [|a0 b0 l l' Hab H IH]; intros i Hi.
  - destruct i; discriminate.
  - destruct i as [|i]; simpl in *.
    + inversion Hi; subst. eauto.
    + apply IH. assumption.
Qed.

Lemma evaluateSplineCurve_returns (cps : list Vector2) (r : Z) :
  (1 <= List.length cps)%nat -> (1 <= r)%Z ->
  exists pts, evaluateSplineCurve cps (of_Z r) = Returns pts
              /\ List.length pts = Z.to_nat (r + 1).
Proof.
  intros Hn Hr. unfold evaluateSplineCurve, getPoints.
  rewrite for_le_of_Z. simpl.
  destruct (for_each_total (fun d => getPoint cps (d / of_Z r))
              (map of_nat (seq 0 (Z.to_nat (r + 1))))) as [pts Hpts].
  - intros a Ha. apply in_map_iff in Ha. destruct Ha as [d [<- Hd]].
    apply in_seq in Hd.
    destruct (div_of_Z_unit (d := Z.of_nat d) (r := r)) as [q [E [H0 H1]]];
      [lia|lia|].
    unfold of_nat. rewrite E. apply getPoint_returns; assumption.
  - exists pts. split; [assumption|].
    apply for_each_length in Hpts. rewrite Hpts, length_map, length_seq.
    reflexivity.
Qed.

Lemma finite_inv (a : number) : finite a -> exists q, a = Fin q.
Proof. destruct a; simpl; try contradiction. eauto. Qed.

Lemma CatmullRom_at_knot (p0 p1 p2 p3 : Vector2) :
  finite_point p0 -> finite_point p1 -> finite_point p2 -> finite_point p3 ->
  {| x := CatmullRom (of_Z 0) (x p0) (x p1) (x p2) (x p3);
     y := CatmullRom (of_Z 0) (y p0) (y p1) (y p2) (y p3) |} = p1.
Proof.
  intros [Hx0 Hy0] [Hx1 Hy1] [Hx2 Hy2] [Hx3 Hy3].
  destruct p0 as [x0 y0], p1 as [x1 y1], p2 as [x2 y2], p3 as [x3 y3].
  simpl in *.
  repeat match goal with
         | H : finite ?a |- _ => apply finite_inv in H; destruct H as [? ->]
         end.
  rewrite !CatmullRom_weight_0. reflexivity.
Qed.

Lemma nth_error_finite (points : list Vector2) (i : nat) (p : Vector2) :
  Forall finite_point points -> nth_error points i = Some p -> finite_point p.
Proof.
  intros H E. apply nth_error_In in E. rewrite Forall_forall in H. auto.
Qed.

Lemma getPoint_first (points : list Vector2) (p : Vector2) :
  (2 <= List.length points)%nat -> Forall finite_point points ->
  nth_error points 0 = Some p ->
  getPoint points (of_Z 0) = Returns p.
Proof.
  intros Hn Hfin Hp.
  set (n := Z.of_nat (List.length points)).
  assert (E : Math_floor ((array_length points - of_Z 1) * of_Z 0) = of_Z 0).
  { rewrite array_length_of_Z, sub_of_Z, mul_of_Z, Z.mul_0_r.
    apply Math_floor_of_Z. }
  rewrite (getPoint_unfold _ _ E). fold n.
  rewrite array_length_of_Z, sub_of_Z, mul_of_Z, Z.mul_0_r, sub_of_Z.
  change (0 - 0)%Z with 0%Z. change (0 =? 0)%Z with true. cbv iota.
  rewrite (array_get_of_Z points (k := 0)) by lia. simpl Z.to_nat. rewrite Hp.
  destruct (array_get_in_range points (j := if (n - 2 <? 0)%Z then n - 1 else 0 + 1))
    as [q2 E2]; [fold n; destruct (Z.ltb_spec (n - 2) 0); lia|].
  destruct (array_get_in_range points (j := if (n - 3 <? 0)%Z then n - 1 else 0 + 2))
    as [q3 E3]; [fold n; destruct (Z.ltb_spec (n - 3) 0); lia|].
  rewrite E2, E3. simpl. f_equal.
  rewrite array_get_of_Z in E2, E3
    by (try destruct (Z.ltb_spec (n - 2) 0); try destruct (Z.ltb_spec (n - 3) 0); lia).
  apply CatmullRom_at_knot; eapply nth_error_finite; eauto.
Qed.

Lemma getPoint_last (points : list Vector2) (p : Vector2) :
  (2 <= List.length points)%nat -> Forall finite_point points ->
  nth_error points (List.length points - 1) = Some p ->
  getPoint points (of_Z 1) = Returns p.
Proof.
  intros Hn Hfin Hp.
  set (n := Z.of_nat (List.length points)).
  assert (E : Math_floor ((array_length points - of_Z 1) * of_Z 1) = of_Z (n - 1)).
  { rewrite array_length_of_Z, sub_of_Z, mul_of_Z, Z.mul_1_r.
    apply Math_floor_of_Z. }
  rewrite (getPoint_unfold _ _ E). fold n.
  rewrite array_length_of_Z, sub_of_Z, mul_of_Z, Z.mul_1_r, sub_of_Z. fold n.
  rewrite Z.sub_diag.
  assert (Hn' : (2 <= n)%Z) by (unfold n; lia).
  destruct (Z.eqb_spec (n - 1) 0); [lia|].
  destruct (Z.ltb_spec (n - 2) (n - 1)); [|lia].
  destruct (Z.ltb_spec (n - 3) (n - 1)); [|lia].
  destruct (array_get_in_range points (j := n - 1 - 1)) as [q0 E0]; [fold n; lia|].
  rewrite E0. rewrite array_get_of_Z in E0 by lia.
  rewrite (array_get_of_Z points (k := n - 1)) by lia.
  replace (Z.to_nat (n - 1)) with (List.length points - 1)%nat by (unfold n; lia).
  rewrite Hp. simpl. f_equal.
  apply CatmullRom_at_knot; eapply nth_error_finite; eauto.
Qed.

Lemma evaluateSplineCurve_nth (cps pts : list Vector2) (r : Z) (d : nat) :
  evaluateSplineCurve cps (of_Z r) = Returns pts ->
  (d < Z.to_nat (r + 1))%nat ->
  exists pt, nth_error pts d = Some pt
             /\ getPoint cps (of_nat d / of_Z r) = Returns pt.
Proof.
  unfold evaluateSplineCurve, getPoints. rewrite for_le_of_Z. simpl.
  intros H Hd. apply for_each_Forall2 in H.
  eapply Forall2_nth_error_l in H; [|apply seq_map_of_nat_nth; eassumption].
  exact H.
Qed.

(** C8. For a sequence of at least two control points (with real
    coordinates) and an integer resolution of at least 1, the spline evaluator
    returns exactly [resolution + 1] points, the first equal to the first
    control point and the last equal to the last control point. *)
Theorem evaluateSplineCurve_endpoints (cps : list Vector2) (r : Z) :
  (2 <= List.length cps)%nat -> Forall finite_point cps -> (1 <= r)%Z ->
  exists pts,
    evaluateSplineCurve cps (of_Z r) = Returns pts
    /\ List.length pts = (Z.to_nat r + 1)%nat
    /\ nth_error pts 0 = nth_error cps 0
    /\ nth_error pts (List.length pts - 1) = nth_error cps (List.length cps - 1).
Proof.
  intros Hn Hfin Hr.
  destruct (@evaluateSplineCurve_returns cps r) as [pts [Hpts Hlen]]; [lia|lia|].
  exists pts. split; [assumption|]. split; [lia|].
  destruct (nth_error cps 0) as [c0|] eqn:E0;
    [|apply nth_error_None in E0; lia].
  destruct (nth_error cps (List.length cps - 1)) as [cl|] eqn:El;
    [|apply nth_error_None in El; lia].
  split.
  - destruct (@evaluateSplineCurve_nth cps pts r 0 Hpts) as [pt [Hpt Hget]]; [lia|].
    rewrite Hpt. f_equal.
    change (of_nat 0) with (of_Z 0) in Hget.
    rewrite div_zero_of_Z in Hget by lia.
    rewrite (getPoint_first Hn Hfin E0) in Hget. congruence.
  - destruct (@evaluateSplineCurve_nth cps pts r (Z.to_nat r) Hpts)
      as [pt [Hpt Hget]]; [lia|].
    replace (List.length pts - 1)%nat with (Z.to_nat r) by lia.
    rewrite Hpt. f_equal.
    unfold of_nat in Hget. rewrite Z2Nat.id in Hget by lia.
    rewrite div_of_Z_self in Hget by lia.
    rewrite (getPoint_last Hn Hfin El) in Hget. congruence.
Qed.

(** ** The brightness sampler *)

Lemma this_Qcopp (a : Qc) : (this (- a)%Qc == - this a)%Q.
Proof. unfold Qcopp. apply this_Q2Qc. Qed.

Lemma this_Qcminus (a b : Qc) : (this (a - b)%Qc == this a - this b)%Q.
Proof. unfold Qcminus. rewrite this_Qcplus, this_Qcopp. reflexivity. Qed.

Ltac qc_to_q :=
  unfold Qclt, Qcle in *;
  repeat (rewrite ?this_Qcminus, ?this_Qcplus, ?this_Qcmult, ?this_Qcopp,
            ?this_Q2Qc in * ).

Lemma Qfloor_unique (x : Q) (z : Z) :
  (inject_Z z <= x)%Q -> (x < inject_Z (z + 1))%Q -> Qfloor x = z.
Proof.
  intros H1 H2.
  pose proof (Qfloor_le x) as H3. pose proof (Qlt_floor x) as H4.
  assert (z < Qfloor x + 1)%Z
    by (rewrite Zlt_Qlt; eapply Qle_lt_trans; eassumption).
  assert (Qfloor x < z + 1)%Z
    by (rewrite Zlt_Qlt; eapply Qle_lt_trans; eassumption).
  lia.
Qed.

Lemma Qfloor_succ (x : Qc) : Qfloor (x + 1)%Qc = (Qfloor x + 1)%Z.
Proof.
  apply Qfloor_unique.
  - rewrite this_Qcplus, inject_Z_plus. apply Qplus_le_l. apply Qfloor_le.
  - rewrite this_Qcplus, inject_Z_plus. apply Qplus_lt_l. apply Qlt_floor.
Qed.

Lemma Qceiling_floor_cases (x : Q) :
  (Qceiling x = Qfloor x /\ x == inject_Z (Qfloor x))
  \/ Qceiling x = (Qfloor x + 1)%Z.
Proof.
  pose proof (Qfloor_le x) as H1. pose proof (Qlt_floor x) as H2.
  pose proof (Qle_ceiling x) as H3. pose proof (Qceiling_lt x) as H4.
  assert (Qfloor x <= Qceiling x)%Z
    by (rewrite Zle_Qle; eapply Qle_trans; eassumption).
  assert (Qceiling x - 1 < Qfloor x + 1)%Z
    by (rewrite Zlt_Qlt; eapply Qlt_trans; eassumption).
  destruct (Z.eq_dec (Qceiling x) (Qfloor x)) as [E|E]; [left|right; lia].
  split; [assumption|]. rewrite E in H3. apply Qle_antisym; assumption.
Qed.

Lemma floor_part_nonneg (x : Qc) :
  Qc_ltb (x - 1 * Q2Qc (inject_Z (Qfloor x)))%Qc 0 = false.
Proof.
  pose proof (Qfloor_le x) as Hf1.
  destruct (Qc_ltb _ 0) eqn:E; [|reflexivity].
  apply Qc_ltb_lt in E. qc_to_q. exfalso.
  rewrite Qmult_1_l in E. change (this 0%Qc) with 0%Q in E.
  apply Qle_minus_iff in Hf1. apply (Qlt_not_le _ _ E). exact Hf1.
Qed.

Lemma ceiling_part_negative (x : Qc) :
  Qceiling x = Qfloor x
  \/ (Qc_ltb (x - 1 * Q2Qc (inject_Z (Qceiling x)))%Qc 0 = true
      /\ (x - 1 * Q2Qc (inject_Z (Qceiling x)) + 1
          = x - Q2Qc (inject_Z (Qfloor x)))%Qc).
Proof.
  pose proof (Qlt_floor x) as Hf2.
  destruct (Qceiling_floor_cases x) as [[Ec _]|Ec]; [left; assumption|right].
  rewrite Ec. split.
  - apply Qc_ltb_lt. qc_to_q.
    rewrite Qmult_1_l. change (this 0%Qc) with 0%Q.
    apply Qlt_minus_iff in Hf2.
    rewrite <- (Qopp_involutive (this x + - inject_Z (Qfloor x + 1))).
    rewrite Qopp_plus, Qopp_involutive, Qplus_comm.
    change 0%Q with (- 0)%Q. apply Qopp_lt_compat. exact Hf2.
  - apply Qc_is_canon. qc_to_q. rewrite inject_Z_plus.
    change (inject_Z 1) with 1%Q. change (this 1%Qc) with 1%Q. ring.
Qed.

(** The two wrapping statements of the sampler, [s = x % 1] followed by
    [if (s < 0) s += 1], compute the fractional part [x - floor x]. *)
Lemma wrap_unit_interval (x : Qc) :
  (if (Fin x %% of_Z 1) <? of_Z 0
   then Fin x %% of_Z 1 + of_Z 1 else Fin x %% of_Z 1)
  = Fin (x - Q2Qc (inject_Z (Qfloor x)))%Qc.
Proof.
  unfold rem, of_Z.
  change (Qc_eqb (Q2Qc (inject_Z 1)) 0) with false. cbv iota.
  change (Q2Qc (inject_Z 1)) with 1%Qc. change (Q2Qc (inject_Z 0)) with 0%Qc.
  replace (x / 1)%Qc with x by (field; discriminate).
  unfold Qc_trunc, lt, add.
  destruct (Qc_ltb x 0).
  - destruct (ceiling_part_negative x) as [E|[E1 E2]].
    + rewrite E, floor_part_nonneg. f_equal. ring.
    + rewrite E1. f_equal. exact E2.
  - rewrite floor_part_nonneg. f_equal. ring.
Qed.

Lemma Qc_eqb_neq (a b : Qc) : a <> b -> Qc_eqb a b = false.
Proof.
  intros H. destruct (Qc_eqb a b) eqn:E; [|reflexivity].
  apply Qc_eqb_eq in E. contradiction.
Qed.

Lemma Qfloor_add_Z (x : Qc) (j : Z) :
  Qfloor (x + Q2Qc (inject_Z j))%Qc = (Qfloor x + j)%Z.
Proof.
  apply Qfloor_unique.
  - rewrite this_Qcplus, this_Q2Qc, inject_Z_plus. apply Qplus_le_l. apply Qfloor_le.
  - rewrite this_Qcplus, this_Q2Qc.
    replace (Qfloor x + j + 1)%Z with ((Qfloor x + 1) + j)%Z by lia.
    rewrite inject_Z_plus. apply Qplus_lt_l. apply Qlt_floor.
Qed.

(** The wrapped coordinate depends on the quotient only through its
    fractional part: a quotient larger by a whole number wraps to the same
    place. *)
Lemma wrapped_quotient_shift (q : Qc) (k : Z) :
  (if (Fin (q + Q2Qc (inject_Z k)) %% of_Z 1) <? of_Z 0
   then Fin (q + Q2Qc (inject_Z k)) %% of_Z 1 + of_Z 1
   else Fin (q + Q2Qc (inject_Z k)) %% of_Z 1)
  = (if (Fin q %% of_Z 1) <? of_Z 0
     then Fin q %% of_Z 1 + of_Z 1
     else Fin q %% of_Z 1).
Proof.
  rewrite !wrap_unit_interval. f_equal. rewrite Qfloor_add_Z.
  apply Qc_is_canon. qc_to_q. rewrite inject_Z_plus. ring.
Qed.

(** C5 (amended). With an image loaded, the sample depends on [u] and
    [imageScale] only through the quotient [u / imageScale] taken modulo 1:
    whenever the quotient computed for [u'] is finite and exceeds the
    quotient computed for [u] by a whole number, the two samples are equal,
    for every [v].  So the pattern repeats along [u] every [imageScale]
    (wherever the division is exact), not every [1 / imageScale].  The
    statement is about the quotients as computed and so does not depend on
    how the division rounds. *)
Theorem sampleImageBrightness_period (img : Image.t) (u u' v s : number)
  (q : Qc) (k : Z) :
  u / s = Fin q -> u' / s = Fin (q + Q2Qc (inject_Z k))%Qc ->
  sampleImageBrightness (Some img) u' v s
  = sampleImageBrightness (Some img) u v s.
Proof.
  intros Hu Hu'. unfold sampleImageBrightness. cbv zeta.
  rewrite Hu, Hu', wrapped_quotient_shift. reflexivity.
Qed.

(** Leibniz equality of numbers, decided. *)
Lemma number_eqb_eq (a b : number) : number_eqb a b = true -> a = b.
Proof.
  destruct a, b; simpl; try discriminate; try reflexivity.
  intros H. f_equal. apply Qc_is_canon. apply Qeq_bool_eq. assumption.
Qed.

Lemma number_eqb_neq (a b : number) : number_eqb a b = false -> a <> b.
Proof.
  intros H E. subst b. destruct a; simpl in H; try discriminate.
  rewrite Qeq_bool_refl in H. discriminate.
Qed.

(** C5, counterexample. A 5 x 1 image whose first pixel is black and whose
    second pixel is white, [imageScale = 2], [u = v = 0]: the sample at
    [u + 1/imageScale = 1/2] falls on the white pixel. *)
Lemma sampleImageBrightness_not_period_inverse_scale :
  sampleImageBrightness (Some stripes) (of_Z 0 + of_Z 1 / of_Z 2) (of_Z 0) (of_Z 2)
  <> sampleImageBrightness (Some stripes) (of_Z 0) (of_Z 0) (of_Z 2).
Proof. apply number_eqb_neq. vm_compute. reflexivity. Qed.

(** ** Depth normalisation *)

Lemma Qc_leb_total (a b : Qc) : Qc_leb a b = false -> Qc_leb b a = true.
Proof.
  unfold Qc_leb, Qccompare. rewrite <- (Qcompare_antisym a b).
  destruct (a ?= b)%Q; simpl; congruence.
Qed.

Lemma Qc_leb_antisym (a b : Qc) : Qc_leb a b = true -> Qc_leb b a = true -> a = b.
Proof.
  intros H1 H2. apply Qc_leb_le in H1, H2. apply Qcle_antisym; assumption.
Qed.

Lemma Math_min_comm (a b : number) : Math_min a b = Math_min b a.
Proof.
  destruct a as [| | |x], b as [| | |y]; try reflexivity.
  unfold Math_min, le.
  destruct (Qc_leb x y) eqn:E1, (Qc_leb y x) eqn:E2; try reflexivity.
  - f_equal. apply Qc_leb_antisym; assumption.
  - apply Qc_leb_total in E1. congruence.
Qed.

Lemma Math_max_comm (a b : number) : Math_max a b = Math_max b a.
Proof.
  destruct a as [| | |x], b as [| | |y]; try reflexivity.
  unfold Math_max, le.
  destruct (Qc_leb x y) eqn:E1, (Qc_leb y x) eqn:E2; try reflexivity.
  - f_equal. symmetry. apply Qc_leb_antisym; assumption.
  - apply Qc_leb_total in E1. congruence.
Qed.

Lemma Math_min_le_max (a b : number) :
  Math_min a b = NaN \/ (Math_min a b <=? Math_max a b) = true.
Proof.
  destruct a as [| | |x], b as [| | |y]; simpl; auto.
  destruct (Qc_leb x y) eqn:E; simpl; right; [assumption|].
  apply Qc_leb_total. assumption.
Qed.

(** ** The generator, the exporter and the pricing *)

Lemma Qc_pos_nonzero (h : Qc) : (0 < h)%Qc -> Qc_eqb h 0 = false.
Proof.
  intros H. destruct (Qc_eqb h 0) eqn:E; [|reflexivity].
  apply Qc_eqb_eq in E. subst. exfalso. revert H. apply Qlt_irrefl.
Qed.

(** The point and sample counts of the L-shaped run: the straight-run
    count scaled by [totalPath / height] and rounded. *)
Lemma round_scaled_count (c : Z) (h cr : Qc) :
  (1 <= c)%Z -> (0 < h)%Qc -> (0 <= cr)%Qc ->
  exists m, Math_round (of_Z c * ((Fin h + Fin cr) / Fin h)) = of_Z m /\ (1 <= m)%Z.
Proof.
  intros Hc Hh Hcr. unfold of_Z at 1, add, div, mul.
  rewrite (Qc_pos_nonzero Hh). unfold Math_round.
  eexists; split; [reflexivity|].
  rewrite <- (Qfloor_Z 1). apply Qfloor_resp_le.
  rewrite this_Qcplus, this_Qcmult, this_Qcdiv, this_Qcplus, !this_Q2Qc.
  unfold Qclt, Qcle in *. simpl in Hh, Hcr.
  assert (H1 : (1 <= (this h + this cr) / this h)%Q).
  { apply Qle_shift_div_l; [assumption|]. rewrite Qmult_1_l.
    rewrite <- (Qplus_0_r (this h)) at 1. apply Qplus_le_r. assumption. }
  assert (H2 : (1 <= inject_Z c)%Q)
    by (change 1%Q with (inject_Z 1); rewrite <- Zle_Qle; lia).
  pose proof (Qmult_le_1_compat _ _ H2 H1) as H3.
  change (inject_Z 1) with 1%Q.
  eapply Qle_trans; [exact H3|].
  rewrite <- Qplus_0_r at 1. apply Qplus_le_r. discriminate.
Qed.

Section EngineFacts.

Variables Math_sin Math_asin : number -> number.
Variable Number_toString : Qc -> string.
Variable imageData : option Image.t.

Local Abbreviation generateControlPoints :=
  (generateControlPoints Math_sin Math_asin imageData).
Local Abbreviation generateControlPointsLPath :=
  (generateControlPointsLPath Math_sin Math_asin imageData).
Local Abbreviation rib_iteration := (rib_iteration Math_sin Math_asin imageData).
Local Abbreviation generateRibProfiles :=
  (generateRibProfiles Math_sin Math_asin imageData).
Local Abbreviation exportDXF := (exportDXF Number_toString).
Local Abbreviation calculatePricing := (calculatePricing Number_toString).

Lemma generateControlPoints_integer (p : RibParams) (i scale : number) (c : Z) :
  controlPoints p = of_Z c ->
  exists pts, generateControlPoints p i scale = Returns pts
              /\ List.length pts = Z.to_nat c.
Proof.
  intros Hc. unfold generateControlPoints. rewrite Hc, for_lt_of_Z. simpl.
  eexists; split; [reflexivity|]. rewrite !length_map, length_seq. reflexivity.
Qed.

Lemma generateControlPointsLPath_corner (p : RibParams) (i scale : number)
  (c : Z) (h cr : Qc) :
  controlPoints p = of_Z c -> (1 <= c)%Z ->
  height p = Fin h -> (0 < h)%Qc -> (0 <= cr)%Qc ->
  exists pts, generateControlPointsLPath p i (Fin h + Fin cr) scale = Returns pts
              /\ (1 <= List.length pts)%nat.
Proof.
  intros Hc Hc1 Hh Hh0 Hcr. unfold generateControlPointsLPath. cbv zeta.
  rewrite Hc, Hh.
  destruct (round_scaled_count Hc1 Hh0 Hcr) as [m [-> Hm]].
  rewrite for_lt_of_Z. simpl.
  eexists; split; [reflexivity|]. rewrite !length_map, length_seq. lia.
Qed.

(** What a turn of the loop yields whenever it returns. *)
Lemma rib_iteration_inv (p : RibParams) (mode : InstallationMode)
  (scale i : number) (rp : RibProfile.t) (pushed : list (list Vector2)) :
  rib_iteration p mode scale i = Returns (rp, pushed) ->
  RibProfile.index rp = i
  /\ RibProfile.ceilingProfile rp = None
  /\ RibProfile.ceilingRun rp = None
  /\ List.length pushed = (match mode with both => 1 | _ => 0 end)%nat.
Proof.
  unfold rib_iteration. intros H.
  destruct mode.
  - destruct (generateControlPoints p i scale) as [cps| |]; simpl in H; try discriminate.
    destruct (evaluateSplineCurve cps (displayResolution p)) as [pr| |];
      simpl in H; try discriminate.
    inversion H; subst; simpl. auto.
  - destruct (generateControlPoints p i scale) as [cps| |]; simpl in H; try discriminate.
    destruct (evaluateSplineCurve cps (displayResolution p)) as [pr| |];
      simpl in H; try discriminate.
    inversion H; subst; simpl. auto.
  - destruct (generateControlPointsLPath p i (height p + ceilingRun p) scale)
      as [cps| |]; simpl in H; try discriminate.
    destruct (evaluateSplineCurve cps _) as [pr| |]; simpl in H; try discriminate.
    inversion H; subst; simpl. auto.
Qed.


Lemma rib_iteration_returns (p : RibParams) (mode : InstallationMode)
  (scale i : number) (c r : Z) :
  controlPoints p = of_Z c -> (1 <= c)%Z ->
  displayResolution p = of_Z r -> (1 <= r)%Z ->
  corner_ok p mode ->
  exists res, rib_iteration p mode scale i = Returns res.
Proof.
  intros Hc Hc1 Hr Hr1 Hcorner. unfold rib_iteration.
  destruct mode.
  1, 2: destruct (@generateControlPoints_integer p i scale c Hc) as [cps [-> Hlen]];
    simpl; rewrite Hr;
    destruct (@evaluateSplineCurve_returns cps r) as [pr [-> _]];
    [lia|lia|simpl; eexists; reflexivity].
  destruct (Hcorner eq_refl) as [h [cr [Hh [Hcr [Hh0 Hcr0]]]]].
  rewrite Hh, Hcr.
  destruct (@generateControlPointsLPath_corner p i scale c h cr)
    as [cps [-> Hlen]]; try assumption.
  cbn [bind]. rewrite Hr.
  destruct (round_scaled_count Hr1 Hh0 Hcr0) as [m [-> Hm]].
  destruct (@evaluateSplineCurve_returns cps m) as [pr [-> _]]; [lia|lia|].
  simpl. eexists; reflexivity.
Qed.

Lemma generateRibProfiles_run (p : RibParams) (mode : InstallationMode)
  (scale : number) (n c r : Z) :
  count p = of_Z n ->
  controlPoints p = of_Z c -> (1 <= c)%Z ->
  displayResolution p = of_Z r -> (1 <= r)%Z ->
  corner_ok p mode ->
  exists rs,
    snd (generateRibProfiles p mode scale)
    = Returns {| ribProfiles := map fst rs;
                 ceilingProfilesArr := List.concat (map snd rs) |}
    /\ Forall2 (fun i res =>
                  rib_iteration (fst (generateRibProfiles p mode scale)) mode scale i
                  = Returns res)
               (map of_nat (seq 0 (Z.to_nat n))) rs.
Proof.
  intros Hn Hc Hc1 Hr Hr1 Hcorner.
  unfold generateRibProfiles. cbv zeta. cbn [fst snd].
  set (p' := assign_depths p _ _).
  change (count p') with (count p). rewrite Hn, for_lt_of_Z. cbn [bind].
  destruct (for_each_total (rib_iteration p' mode scale)
              (map of_nat (seq 0 (Z.to_nat n)))) as [rs Hrs].
  - intros i _. apply (@rib_iteration_returns p' mode scale i c r); assumption.
  - exists rs. rewrite Hrs. cbn [bind]. split; [reflexivity|].
    apply for_each_Forall2. assumption.
Qed.

Lemma iterations_indices (p : RibParams) (mode : InstallationMode) (scale : number)
  (ixs : list number) (rs : list (RibProfile.t * list (list Vector2))) :
  Forall2 (fun i res => rib_iteration p mode scale i = Returns res) ixs rs ->
  map RibProfile.index (map fst rs) = ixs.
Proof.
  induction 1 as [|i [rp pushed] ixs rs Hi _ IH]; simpl; [reflexivity|].
  apply rib_iteration_inv in Hi. destruct Hi as [-> _]. rewrite IH. reflexivity.
Qed.

Lemma corner_sized_ok (p : RibParams) (mode : InstallationMode) :
  corner_sized p mode -> corner_ok p mode.
Proof.
  intros H Hmode. destruct (H Hmode) as [h [cr [Hh [Hcr [H1 [_ [H0 _]]]]]]].
  exists h, cr. split; [assumption|]. split; [assumption|]. split; [|assumption].
  unfold Qclt, Qcle in *. change (this 0%Qc) with 0%Q.
  change (this 1%Qc) with 1%Q in H1. lra.
Qed.

(** C1 (amended). For integer [count], [controlPoints] and
    [displayResolution] between 1 and 1000, and in mode [both] a wall height
    between 1 and 1000 and a ceiling run between 0 and 1000,
    [generateRibProfiles] returns, and [ribProfiles] holds exactly [count]
    records whose [index] fields are 0, 1, ..., count-1 in that order. *)
Theorem generateRibProfiles_indices (p : RibParams) (mode : InstallationMode)
  (scale : number) (n c r : Z) :
  count p = of_Z n -> (1 <= n <= 1000)%Z ->
  controlPoints p = of_Z c -> (1 <= c <= 1000)%Z ->
  displayResolution p = of_Z r -> (1 <= r <= 1000)%Z ->
  corner_sized p mode ->
  exists res,
    snd (generateRibProfiles p mode scale) = Returns res
    /\ List.length (ribProfiles res) = Z.to_nat n
    /\ map RibProfile.index (ribProfiles res) = map of_nat (seq 0 (Z.to_nat n)).
Proof.
  intros Hn Hn1 Hc Hc1 Hr Hr1 Hcorner. apply corner_sized_ok in Hcorner.
  destruct (@generateRibProfiles_run p mode scale n c r) as [rs [Hres Hrs]];
    try assumption; try lia.
  eexists; split; [exact Hres|]. cbn [ribProfiles].
  pose proof (@iterations_indices _ _ _ _ _ Hrs) as Hix. split; [|exact Hix].
  rewrite <- (length_map RibProfile.index), Hix, length_map, length_seq.
  reflexivity.
Qed.

Lemma rib_iteration_both_inv (p : RibParams) (scale i : number)
  (rp : RibProfile.t) (pushed : list (list Vector2)) :
  rib_iteration p both scale i = Returns (rp, pushed) ->
  exists segment,
    pushed = [segment]
    /\ corner_cut Math_sin Math_asin imageData p scale i rp segment.
Proof.
  unfold rib_iteration. intros H.
  destruct (generateControlPointsLPath p i (height p + ceilingRun p) scale)
    as [cps| |] eqn:Ecps; cbn [bind] in H; try discriminate.
  destruct (evaluateSplineCurve cps _) as [pr| |] eqn:Epr; cbn [bind] in H;
    try discriminate.
  inversion H; subst; clear H.
  eexists; split; [reflexivity|]. unfold corner_cut. cbv zeta.
  exists cps, pr. split; [exact Ecps|]. split; [exact Epr|].
  cbn [RibProfile.profile RibProfile.controlPoints].
  split; [reflexivity|]. split; reflexivity.
Qed.

Lemma both_iterations (p : RibParams) (scale : number) (ixs : list number)
  (rs : list (RibProfile.t * list (list Vector2))) :
  Forall2 (fun i res => rib_iteration p both scale i = Returns res) ixs rs ->
  Forall (fun rp => RibProfile.ceilingProfile rp = None
                    /\ RibProfile.ceilingRun rp = None) (map fst rs)
  /\ List.length (List.concat (map snd rs)) = List.length (map fst rs)
  /\ forall k rp, nth_error (map fst rs) k = Some rp ->
       exists i segment,
         nth_error ixs k = Some i
         /\ nth_error (List.concat (map snd rs)) k = Some segment
         /\ corner_cut Math_sin Math_asin imageData p scale i rp segment.
Proof.
  induction 1 as [|i [rp0 pushed0] ixs rs Hi _ IH].
  - simpl. repeat split; [constructor|]. intros [|k] rp E; discriminate.
  - destruct IH as [IH1 [IH2 IH3]].
    pose proof (rib_iteration_inv _ _ _ _ Hi) as [_ [Hcp [Hcr _]]].
    apply rib_iteration_both_inv in Hi. destruct Hi as [seg0 [-> Hsplit]].
    cbn [map fst snd List.concat app List.length].
    repeat split.
    + constructor; auto.
    + rewrite IH2. reflexivity.
    + intros [|k] rp E; cbn [nth_error] in *.
      * inversion E; subst. eauto.
      * apply IH3. assumption.
Qed.

(** C2 (amended). In mode [both], at the sizes of C1, the records returned
    by [generateRibProfiles] carry neither a [ceilingProfile] nor a
    [ceilingRun] field; the ceiling runs come back in the separate array
    [ceilingProfilesArr], one segment per rib and in rib order.  The segment
    of rib [k] is cut from the dense curve of that rib, the curve
    [evaluateSplineCurve] returns for the control points
    [generateControlPointsLPath] returns for rib [k] on the normalised
    parameters: it holds the samples from the split index
    [Math.round((height / totalPath) * fullProfile.length)] on, with [height]
    subtracted from every position, while the record keeps the samples up to
    the split index. *)
Theorem generateRibProfiles_ceiling_segments (p : RibParams) (scale : number)
  (n c r : Z) :
  count p = of_Z n -> (1 <= n <= 1000)%Z ->
  controlPoints p = of_Z c -> (1 <= c <= 1000)%Z ->
  displayResolution p = of_Z r -> (1 <= r <= 1000)%Z ->
  corner_sized p both ->
  exists res,
    snd (generateRibProfiles p both scale) = Returns res
    /\ Forall (fun rp => RibProfile.ceilingProfile rp = None
                         /\ RibProfile.ceilingRun rp = None) (ribProfiles res)
    /\ List.length (ceilingProfilesArr res) = List.length (ribProfiles res)
    /\ forall k rp, nth_error (ribProfiles res) k = Some rp ->
         exists segment,
           nth_error (ceilingProfilesArr res) k = Some segment
           /\ corner_cut Math_sin Math_asin imageData
                (fst (generateRibProfiles p both scale)) scale (of_nat k)
                rp segment.
Proof.
  intros Hn Hn1 Hc Hc1 Hr Hr1 Hcorner. apply corner_sized_ok in Hcorner.
  destruct (@generateRibProfiles_run p both scale n c r) as [rs [Hres Hrs]];
    try assumption; try lia.
  eexists; split; [exact Hres|]. cbn [ribProfiles ceilingProfilesArr].
  destruct (@both_iterations _ _ _ _ Hrs) as [H1 [H2 H3]].
  split; [assumption|]. split; [assumption|].
  intros k rp Hk. destruct (H3 k rp Hk) as [i [segment [Hi [Hseg Hcut]]]].
  exists segment. split; [assumption|].
  rewrite nth_error_map, nth_error_seq in Hi.
  destruct (Nat.ltb_spec k (Z.to_nat n)); [|discriminate].
  cbn [option_map Nat.add] in Hi. inversion Hi; subst i. exact Hcut.
Qed.

(** C3. Calling [generateRibProfiles] with [minDepth] and [maxDepth]
    exchanged gives the same outcome and leaves the same parameter object: the
    two fields are overwritten with their minimum and maximum before the loop,
    so [minDepth <= maxDepth] holds (unless a depth is [NaN]) when the first
    depth is computed. *)
Theorem generateRibProfiles_swap_depths (p : RibParams) (mode : InstallationMode)
  (scale : number) :
  generateRibProfiles (swap_depths p) mode scale = generateRibProfiles p mode scale
  /\ minDepth (fst (generateRibProfiles p mode scale))
     = Math_min (minDepth p) (maxDepth p)
  /\ maxDepth (fst (generateRibProfiles p mode scale))
     = Math_max (minDepth p) (maxDepth p)
  /\ (minDepth (fst (generateRibProfiles p mode scale)) = NaN
      \/ (minDepth (fst (generateRibProfiles p mode scale))
          <=? maxDepth (fst (generateRibProfiles p mode scale))) = true).
Proof.
  split; [|split; [reflexivity|split; [reflexivity|apply Math_min_le_max]]].
  unfold generateRibProfiles, swap_depths. cbv zeta.
  cbn [assign_depths minDepth maxDepth].
  rewrite (Math_min_comm (maxDepth p)), (Math_max_comm (maxDepth p)).
  reflexivity.
Qed.

(** *** The control-point generator on out-of-range counts *)

Lemma sample_depth_NaN (p : RibParams) (i scale : number) :
  Math_sin NaN = NaN -> Math_asin NaN = NaN ->
  sample_depth Math_sin Math_asin imageData p i scale NaN = NaN.
Proof.
  intros Hsin Hasin. unfold sample_depth. cbv zeta.
  destruct imageData as [img|].
  - assert (E : sampleImageBrightness (Some img)
                  (if count p >? of_Z 1 then i / (count p - of_Z 1) else frac 1 2)
                  NaN scale = NaN).
    { unfold sampleImageBrightness. cbv zeta.
      change (NaN / scale) with NaN. change (NaN %% of_Z 1) with NaN.
      change (if NaN <? of_Z 0 then NaN + of_Z 1 else NaN) with NaN.
      change (of_Z 1 - NaN) with NaN.
      change (NaN * (of_N (Image.height img) - of_Z 1)) with NaN.
      change (Math_floor NaN) with NaN.
      change (NaN * of_N (Image.width img)) with NaN.
      match goal with
      | |- context [NaN + ?a] => change (NaN + a) with NaN
      end.
      change (NaN * of_Z 4) with NaN. reflexivity. }
    rewrite E. destruct (minDepth p); reflexivity.
  - assert (E : waveFunction Math_sin Math_asin NaN (frequency p) (waveType p)
                  (i * phase p * Math_PI * of_Z 2) = NaN).
    { unfold waveFunction. cbv zeta.
      change (NaN * frequency p) with NaN. change (NaN * Math_PI) with NaN.
      change (NaN * of_Z 2) with NaN.
      change (NaN + i * phase p * Math_PI * of_Z 2) with NaN.
      rewrite Hsin. change (Math_abs NaN) with NaN. change (NaN * NaN) with NaN.
      rewrite Hasin. change (NaN / (Math_PI / of_Z 2)) with NaN.
      destruct (waveType p === of_Z 0); [reflexivity|].
      destruct (waveType p === of_Z 1); [reflexivity|].
      destruct (waveType p === of_Z 2); reflexivity. }
    rewrite E. destruct (minDepth p); reflexivity.
Qed.

(** C6. [controlPoints = 1]: the division [i / (controlPoints - 1)] is not
    guarded (the division by [count - 1] next to it is), so the only sample
    has [t = 0 / 0] and the single point returned is [(NaN, NaN)], whatever
    the other parameters, the rib and the image are.  ECMAScript requires
    [Math.sin(NaN)] and [Math.asin(NaN)] to be [NaN]. *)
Theorem generateControlPoints_one_point (p : RibParams) (i scale : number) :
  controlPoints p = of_Z 1 ->
  Math_sin NaN = NaN -> Math_asin NaN = NaN ->
  generateControlPoints p i scale = Returns [{| x := NaN; y := NaN |}].
Proof.
  intros Hc Hsin Hasin. unfold generateControlPoints.
  rewrite Hc, for_lt_of_Z. cbn [bind].
  change (map of_nat (seq 0 (Z.to_nat 1))) with [of_nat 0]. cbn [map].
  change (of_nat 0 / (of_Z 1 - of_Z 1)) with NaN.
  rewrite sample_depth_NaN by assumption. reflexivity.
Qed.

(** *** Pricing *)

(** C4. The budget scenario: 40 ribs of height 144 and maximum depth 12 on a
    wall, LED enabled, cost 21600 for the ribs, 14400 for the LED and 36000 in
    total. *)
Theorem calculatePricing_budget_scenario (p : RibParams) :
  count p = of_Z 40 -> height p = of_Z 144 -> maxDepth p = of_Z 12 ->
  ribPrice (snd (calculatePricing p wall true)) = of_Z 21600
  /\ ledPrice (snd (calculatePricing p wall true)) = of_Z 14400
  /\ totalPrice (snd (calculatePricing p wall true)) = of_Z 36000.
Proof.
  intros Hc Hh Hd. unfold calculatePricing.
  cbn [snd ribPrice ledPrice totalPrice]. rewrite Hc, Hh, Hd.
  repeat split; apply number_eqb_eq; vm_compute; reflexivity.
Qed.

(** C7. The sheet layout of the pricing result: [ribsPerSheet] is
    [floor (48 / maxDepth)], [sectionsPerRib] is [ceil (ribLength / 144)] with
    [ribLength = height], or [height + ceilingRun] in mode [both],
    [sheetsNeeded] is [ceil (count * sectionsPerRib / max (ribsPerSheet, 1))]
    and [sheetTotalCost] is [sheetsNeeded * 1800]. *)
Theorem calculatePricing_sheet_layout (p : RibParams) (mode : InstallationMode)
  (led : bool) :
  ribLength (snd (calculatePricing p mode led)) = spec_ribLength p mode
  /\ ribsPerSheet (snd (calculatePricing p mode led)) = spec_ribsPerSheet p
  /\ sectionsPerRib (snd (calculatePricing p mode led)) = spec_sectionsPerRib p mode
  /\ sheetsNeeded (snd (calculatePricing p mode led)) = spec_sheetsNeeded p mode
  /\ sheetTotalCost (snd (calculatePricing p mode led))
     = spec_sheetsNeeded p mode * of_Z 1800.
Proof. destruct mode; repeat split; reflexivity. Qed.

(** *** DXF export *)

Lemma nth_error_last {A : Type} (l : list A) (d : A) :
  l <> [] -> nth_error l (List.length l - 1) = Some (last l d).
Proof.
  induction l as [|a l IH]; intros H; [contradiction|].
  destruct l as [|b l]; [reflexivity|].
  replace (List.length (a :: b :: l) - 1)%nat
    with (S (List.length (b :: l) - 1)) by (cbn [List.length]; lia).
  change (last (a :: b :: l) d) with (last (b :: l) d).
  cbn [nth_error]. apply IH. discriminate.
Qed.

Lemma dxf_rib_text (p : RibParams) (rib : RibProfile.t) (i : number) :
  dxf_rib Number_toString (height p) (maxDepth p * frac 12 10) rib i
  = if no_points rib then Throws TypeError
    else Returns (rib_text Number_toString p (rib, i)).
Proof.
  unfold dxf_rib, no_points, rib_text. cbv zeta.
  destruct (RibProfile.profile rib) as [|a l] eqn:E; [reflexivity|].
  rewrite array_get_of_Z by lia.
  rewrite array_length_of_Z, sub_of_Z, array_get_of_Z
    by (cbn [List.length]; lia).
  replace (Z.to_nat (Z.of_nat (List.length (a :: l)) - 1))
    with (List.length (a :: l) - 1)%nat by lia.
  rewrite (nth_error_last (l := a :: l) {| x := of_Z 0; y := of_Z 0 |})
    by discriminate.
  reflexivity.
Qed.

Lemma existsb_indexed_from (ribs : list RibProfile.t) (k : nat) :
  existsb (fun e : RibProfile.t * number => no_points (fst e))
          (combine ribs (map of_nat (seq k (List.length ribs))))
  = existsb no_points ribs.
Proof.
  revert k. induction ribs as [|rib ribs IH]; intros k; [reflexivity|].
  cbn [List.length seq map combine existsb fst]. rewrite IH. reflexivity.
Qed.

Lemma dxf_groups (p : RibParams) (entries : list (RibProfile.t * number)) :
  for_each (fun '(rib, ribIndex) =>
              dxf_rib Number_toString (height p) (maxDepth p * frac 12 10)
                      rib ribIndex) entries
  = if existsb (fun e => no_points (fst e)) entries then Throws TypeError
    else Returns (map (rib_text Number_toString p) entries).
Proof.
  induction entries as [|[rib i] entries IH]; [reflexivity|].
  cbn [for_each existsb map fst]. rewrite dxf_rib_text.
  destruct (no_points rib); [reflexivity|].
  cbn [bind orb]. rewrite IH.
  destruct (existsb _ entries); reflexivity.
Qed.

(** C9 (amended). [exportDXF] has no guard for degenerate profiles.  When
    some rib has an empty profile the call throws a [TypeError] and no
    document is produced.  Otherwise every rib, one with a single point
    included, contributes its four entity groups (LINE, POLYLINE with one
    VERTEX per point and SEQEND, LINE, LINE) between the fixed prologue and
    epilogue, in rib order. *)
Theorem exportDXF_no_degenerate_guard (ribs : list RibProfile.t) (p : RibParams) :
  exportDXF ribs p
  = if existsb no_points ribs then Throws TypeError
    else Returns (dxf_prologue
                  ++ String.concat "" (map (rib_text Number_toString p) (indexed ribs))
                  ++ dxf_epilogue).
Proof.
  unfold exportDXF. cbv zeta. rewrite dxf_groups.
  unfold indexed at 1. rewrite existsb_indexed_from.
  destruct (existsb no_points ribs); reflexivity.
Qed.

Lemma scaled_area_injective (L n a b : Qc) :
  (L * n)%Qc <> 0%Qc ->
  (L * a / Q2Qc (inject_Z 144) * n)%Qc = (L * b / Q2Qc (inject_Z 144) * n)%Qc ->
  a = b.
Proof.
  intros Hne H.
  assert (HK : Q2Qc (inject_Z 144) <> 0%Qc).
  { intros E. apply (f_equal this) in E. vm_compute in E. discriminate. }
  set (K := Q2Qc (inject_Z 144)) in *.
  assert (E : (L * n * (a - b))%Qc = 0%Qc).
  { replace (L * n * (a - b))%Qc
      with ((L * a / K * n - L * b / K * n) * K)%Qc by (field; assumption).
    rewrite H. ring. }
  apply Qcmult_integral in E. destruct E as [E|E]; [contradiction|].
  replace a with (a - b + b)%Qc by ring. rewrite E. ring.
Qed.

(** C10 (amended). [calculatePricing] leaves its argument as it was and
    does not reorder the depths: its result does not depend on [minDepth],
    and the surface area is [ribLength * maxDepth / 144 * count] with
    [maxDepth] as given; on the parameters with the two depths exchanged it
    is [ribLength * minDepth / 144 * count].  The rib price is that area
    times the price per square foot and [ribsPerSheet] is
    [floor (48 / maxDepth)].  So exchanging the depths changes the result
    whenever the two areas, as computed, differ, and they do for
    whole-number lengths (1 to 10000), counts (1 to 1000) and depths
    (0 to 10000) with [minDepth <> maxDepth]. *)
Theorem calculatePricing_depths_as_given (p : RibParams) (mode : InstallationMode)
  (led : bool) :
  fst (calculatePricing p mode led) = p
  /\ (forall m, snd (calculatePricing (assign_depths p m (maxDepth p)) mode led)
                = snd (calculatePricing p mode led))
  /\ totalSurfaceAreaSqFt (snd (calculatePricing p mode led))
     = ribLength (snd (calculatePricing p mode led)) * maxDepth p / of_Z 144
       * count p
  /\ totalSurfaceAreaSqFt (snd (calculatePricing (swap_depths p) mode led))
     = ribLength (snd (calculatePricing p mode led)) * minDepth p / of_Z 144
       * count p
  /\ ribPrice (snd (calculatePricing p mode led))
     = totalSurfaceAreaSqFt (snd (calculatePricing p mode led)) * PRICE_PER_SF
  /\ ribsPerSheet (snd (calculatePricing p mode led))
     = Math_floor (SHEET_WIDTH / maxDepth p)
  /\ (ribLength (snd (calculatePricing p mode led)) * minDepth p / of_Z 144
      * count p
      <> ribLength (snd (calculatePricing p mode led)) * maxDepth p / of_Z 144
         * count p ->
      snd (calculatePricing (swap_depths p) mode led)
      <> snd (calculatePricing p mode led))
  /\ (forall L n a b : Z,
        ribLength (snd (calculatePricing p mode led)) = of_Z L ->
        count p = of_Z n -> minDepth p = of_Z a -> maxDepth p = of_Z b ->
        (1 <= L <= 10000)%Z -> (1 <= n <= 1000)%Z ->
        (0 <= a <= 10000)%Z -> (0 <= b <= 10000)%Z -> a <> b ->
        snd (calculatePricing (swap_depths p) mode led)
        <> snd (calculatePricing p mode led)).
Proof.
  assert (A1 : totalSurfaceAreaSqFt (snd (calculatePricing p mode led))
               = ribLength (snd (calculatePricing p mode led)) * maxDepth p
                 / of_Z 144 * count p)
    by (destruct mode; reflexivity).
  assert (A2 : totalSurfaceAreaSqFt (snd (calculatePricing (swap_depths p) mode led))
               = ribLength (snd (calculatePricing p mode led)) * minDepth p
                 / of_Z 144 * count p)
    by (destruct mode; reflexivity).
  assert (D : ribLength (snd (calculatePricing p mode led)) * minDepth p / of_Z 144
              * count p
              <> ribLength (snd (calculatePricing p mode led)) * maxDepth p
                 / of_Z 144 * count p ->
              snd (calculatePricing (swap_depths p) mode led)
              <> snd (calculatePricing p mode led)).
  { intros Hne H. apply Hne. rewrite <- A1, <- A2, H. reflexivity. }
  split; [reflexivity|]. split; [intros m; reflexivity|].
  split; [exact A1|]. split; [exact A2|].
  split; [destruct mode; reflexivity|]. split; [destruct mode; reflexivity|].
  split; [exact D|].
  intros L n a b HL Hn Ha Hb HL1 Hn1 _ _ Hab. apply D.
  rewrite HL, Hn, Ha, Hb. unfold mul, div, of_Z.
  change (Qc_eqb (Q2Qc (inject_Z 144)) 0) with false. cbv iota.
  intros H. apply Fin_inj in H. apply Hab. apply Q2Qc_inject_Z_inj.
  apply (@scaled_area_injective (Q2Qc (inject_Z L)) (Q2Qc (inject_Z n))); [|exact H].
  rewrite Q2Qc_mult, <- inject_Z_mult. intros E.
  change (Q2Qc 0) with (Q2Qc (inject_Z 0)) in E.
  apply Q2Qc_inject_Z_inj in E. nia.
Qed.

End EngineFacts.

(** ** Closed instances *)

Lemma Qc_neq_by_eqb (a b : Qc) : Qc_eqb a b = false -> a <> b.
Proof. intros H E. apply Qc_eqb_eq in E. congruence. Qed.

Lemma Qc_lt_by_ltb (a b : Qc) : Qc_ltb a b = true -> (a < b)%Qc.
Proof. apply Qc_ltb_lt. Qed.

Lemma Qc_le_by_leb (a b : Qc) : Qc_leb a b = true -> (a <= b)%Qc.
Proof. apply Qc_leb_le. Qed.

(** C1, counterexample. [count = 3] but a wall of height 0 in mode [both]:
    [numPts = round (4 * (96 / 0))] is [Infinity], the loop of
    [generateControlPointsLPath] has no end and no list is returned. *)
Lemma generateRibProfiles_zero_height_no_result :
  count (with_height small_params (of_Z 0)) = of_Z 3
  /\ snd (generateRibProfiles flat_sin flat_asin None
            (with_height small_params (of_Z 0)) both (of_Z 1)) = Diverges.
Proof. split; vm_compute; reflexivity. Qed.

Lemma small_params_corner_sized (mode : InstallationMode) :
  corner_sized small_params mode.
Proof.
  intros _. exists (Q2Qc (inject_Z 144)), (Q2Qc (inject_Z 96)).
  split; [reflexivity|]. split; [reflexivity|].
  repeat split; apply Qc_le_by_leb; vm_compute; reflexivity.
Defined.

Lemma generateRibProfiles_indices_witness :
  exists res,
    snd (generateRibProfiles flat_sin flat_asin None small_params both (of_Z 1))
    = Returns res
    /\ List.length (ribProfiles res) = 3%nat
    /\ map RibProfile.index (ribProfiles res) = [of_Z 0; of_Z 1; of_Z 2].
Proof.
  apply (@generateRibProfiles_indices flat_sin flat_asin None small_params both
           (of_Z 1) 3 4 6);
    try reflexivity; try lia.
  apply small_params_corner_sized.
Defined.

(** C2, counterexample. In mode [both] the first record returned for
    [small_params] has neither field. *)
Lemma generateRibProfiles_both_no_ceiling_field :
  exists res rp,
    snd (generateRibProfiles flat_sin flat_asin None small_params both (of_Z 1))
    = Returns res
    /\ nth_error (ribProfiles res) 0 = Some rp
    /\ RibProfile.ceilingProfile rp = None
    /\ RibProfile.ceilingRun rp = None.
Proof.
  eexists. eexists. split; [vm_compute; reflexivity|].
  split; [reflexivity|]. split; reflexivity.
Qed.

Lemma generateRibProfiles_ceiling_segments_witness :
  corner_sized small_params both
  /\ exists res,
       snd (generateRibProfiles flat_sin flat_asin None small_params both (of_Z 1))
       = Returns res
       /\ Forall (fun rp => RibProfile.ceilingProfile rp = None
                            /\ RibProfile.ceilingRun rp = None) (ribProfiles res)
       /\ List.length (ceilingProfilesArr res) = List.length (ribProfiles res)
       /\ forall k rp, nth_error (ribProfiles res) k = Some rp ->
            exists segment,
              nth_error (ceilingProfilesArr res) k = Some segment
              /\ corner_cut flat_sin flat_asin None
                   (fst (generateRibProfiles flat_sin flat_asin None small_params
                           both (of_Z 1)))
                   (of_Z 1) (of_nat k) rp segment.
Proof.
  split; [apply small_params_corner_sized|].
  apply (@generateRibProfiles_ceiling_segments flat_sin flat_asin None small_params
           (of_Z 1) 3 4 6);
    try reflexivity; try lia.
  apply small_params_corner_sized.
Defined.

Lemma calculatePricing_budget_scenario_witness :
  count budget_params = of_Z 40
  /\ ribPrice (snd (calculatePricing plain_toString budget_params wall true))
     = of_Z 21600
  /\ ledPrice (snd (calculatePricing plain_toString budget_params wall true))
     = of_Z 14400
  /\ totalPrice (snd (calculatePricing plain_toString budget_params wall true))
     = of_Z 36000.
Proof.
  split; [reflexivity|].
  apply (@calculatePricing_budget_scenario plain_toString budget_params);
    reflexivity.
Defined.

Lemma sampleImageBrightness_period_witness :
  sampleImageBrightness (Some stripes) (frac 9 4) (of_Z 0) (of_Z 2)
  = sampleImageBrightness (Some stripes) (frac 1 4) (of_Z 0) (of_Z 2).
Proof.
  apply (@sampleImageBrightness_period stripes (frac 1 4) (frac 9 4) (of_Z 0) (of_Z 2)
           (Q2Qc (1 # 8)) 1).
  - vm_compute. reflexivity.
  - vm_compute. reflexivity.
Defined.

(** C6, failing input. [controlPoints = 1] with an image loaded: the only
    sample has [t = 0 / 0], and the point returned is [(NaN, NaN)]. *)
Lemma generateControlPoints_single_point_is_NaN :
  generateControlPoints flat_sin flat_asin (Some stripes)
    (with_controlPoints small_params (of_Z 1)) (of_Z 0) (of_Z 1)
  = Returns [{| x := NaN; y := NaN |}].
Proof. vm_compute. reflexivity. Qed.

Lemma generateControlPoints_one_point_witness :
  generateControlPoints (fun a => a) (fun a => a) None
    (with_controlPoints small_params (of_Z 1)) (of_Z 0) (of_Z 1)
  = Returns [{| x := NaN; y := NaN |}].
Proof.
  apply (@generateControlPoints_one_point (fun a => a) (fun a => a) None
           (with_controlPoints small_params (of_Z 1)) (of_Z 0) (of_Z 1));
    reflexivity.
Defined.

Lemma evaluateSplineCurve_endpoints_witness :
  exists pts,
    evaluateSplineCurve [pt 4 0; pt 12 72; pt 6 144] (of_Z 4) = Returns pts
    /\ List.length pts = 5%nat
    /\ nth_error pts 0 = Some (pt 4 0)
    /\ nth_error pts (List.length pts - 1) = Some (pt 6 144).
Proof.
  apply (@evaluateSplineCurve_endpoints [pt 4 0; pt 12 72; pt 6 144] 4).
  - simpl. lia.
  - repeat constructor.
  - lia.
Defined.

(** C9, counterexample. A rib with an empty profile after a sound one:
    the export throws, so nothing is emitted for the sound rib either. *)
Lemma exportDXF_empty_profile_throws :
  exportDXF plain_toString [rib_of 0 [pt 4 0; pt 6 144]; rib_of 1 []] small_params
  = Throws TypeError.
Proof. vm_compute. reflexivity. Qed.

(** A rib with a single point is not skipped: its POLYLINE has one VERTEX
    and its three LINE entities are there. *)
Example exportDXF_single_point_rib :
  let out := exportDXF plain_toString [rib_of 0 [pt 4 0]] small_params in
  count_lines_of "POLYLINE" out = Some 1%nat
  /\ count_lines_of "VERTEX" out = Some 1%nat
  /\ count_lines_of "SEQEND" out = Some 1%nat
  /\ count_lines_of "LINE" out = Some 3%nat.
Proof. vm_compute. repeat split. Qed.

(** Section 8: a rib with a 3-point profile gives one LINE, one POLYLINE
    with three VERTEX entries, one SEQEND and two more LINE groups. *)
Example exportDXF_three_point_rib :
  let out := exportDXF plain_toString [rib_of 0 [pt 4 0; pt 12 72; pt 6 144]]
               small_params in
  count_lines_of "POLYLINE" out = Some 1%nat
  /\ count_lines_of "VERTEX" out = Some 3%nat
  /\ count_lines_of "SEQEND" out = Some 1%nat
  /\ count_lines_of "LINE" out = Some 3%nat.
Proof. vm_compute. repeat split. Qed.

(** C10, counterexample. Ribs of length zero with depths 30 and 40: the
    depths differ, yet exchanging them leaves every figure unchanged. *)
Lemma calculatePricing_swap_unnoticed_on_zero_length :
  minDepth zero_length_params <> maxDepth zero_length_params
  /\ snd (calculatePricing plain_toString (swap_depths zero_length_params) wall true)
     = snd (calculatePricing plain_toString zero_length_params wall true).
Proof.
  split; [apply number_eqb_neq; vm_compute; reflexivity|].
  unfold calculatePricing. cbn [snd].
  f_equal; apply number_eqb_eq; vm_compute; reflexivity.
Qed.

Lemma calculatePricing_depths_as_given_witness :
  minDepth small_params <> maxDepth small_params
  /\ fst (calculatePricing plain_toString small_params wall true) = small_params
  /\ snd (calculatePricing plain_toString (swap_depths small_params) wall true)
     <> snd (calculatePricing plain_toString small_params wall true).
Proof.
  split; [apply number_eqb_neq; vm_compute; reflexivity|].
  destruct (@calculatePricing_depths_as_given plain_toString small_params wall true)
    as [H1 [_ [_ [_ [_ [_ [_ H8]]]]]]].
  split; [assumption|].
  apply (H8 144 3 4 12); try reflexivity; lia.
Defined.

(** With [controlPoints = 0] the control-point list is empty and the
    spline evaluator throws on its first sample. *)
Example generateRibProfiles_no_control_points_throws :
  snd (generateRibProfiles flat_sin flat_asin None
         (with_controlPoints small_params (of_Z 0)) wall (of_Z 1))
  = Throws TypeError.
Proof. vm_compute. reflexivity. Qed.

(** The sheet layout of the budget scenario: four ribs of depth 12 across a
    48 inch sheet, one section per rib, ten sheets for forty ribs. *)
Example calculatePricing_budget_sheets :
  let r := snd (calculatePricing plain_toString budget_params wall true) in
  number_eqb (ribsPerSheet r) (of_Z 4) = true
  /\ number_eqb (sectionsPerRib r) (of_Z 1) = true
  /\ number_eqb (sheetsNeeded r) (of_Z 10) = true
  /\ number_eqb (sheetTotalCost r) (of_Z 18000) = true
  /\ wallCoverage r = "19.5' wide x 12.0' tall".
Proof. vm_compute. repeat split. Qed.

(** * Further properties of the engine *)

Lemma Returns_inj {A : Type} (a b : A) : Returns a = Returns b -> a = b.
Proof.
  intros H. exact (f_equal (fun o => match o with Returns v => v | _ => a end) H).
Qed.

(** X1. With an image loaded the sampler tiles the plane: when the quotients
    [u' / imageScale] and [v' / imageScale], as computed, exceed
    [u / imageScale] and [v / imageScale] by whole numbers, the two samples
    are equal. *)
Theorem sampleImageBrightness_tiling (img : Image.t) (u u' v v' s : number)
  (qu qv : Qc) (j k : Z) :
  u / s = Fin qu -> u' / s = Fin (qu + Q2Qc (inject_Z j))%Qc ->
  v / s = Fin qv -> v' / s = Fin (qv + Q2Qc (inject_Z k))%Qc ->
  sampleImageBrightness (Some img) u' v' s
  = sampleImageBrightness (Some img) u v s.
Proof.
  intros Hu Hu' Hv Hv'. unfold sampleImageBrightness. cbv zeta.
  rewrite Hu, Hu', Hv, Hv', !wrapped_quotient_shift. reflexivity.
Qed.

Lemma frac_part_bounds (x : Qc) :
  (0 <= x - Q2Qc (inject_Z (Qfloor x)))%Qc
  /\ (x - Q2Qc (inject_Z (Qfloor x)) < 1)%Qc.
Proof.
  pose proof (Qfloor_le x) as H1. pose proof (Qlt_floor x) as H2.
  rewrite inject_Z_plus in H2. change (inject_Z 1) with 1%Q in H2.
  split; qc_to_q; change (this 0%Qc) with 0%Q; change (this 1%Qc) with 1%Q; lra.
Qed.

Lemma floor_unit_scaled (q : Qc) (m : Z) :
  (0 <= m)%Z -> (0 <= q)%Qc -> (q <= 1)%Qc ->
  exists k, Math_floor (Fin q * of_Z m) = of_Z k /\ (0 <= k <= m)%Z.
Proof.
  intros Hm H0 H1. unfold of_Z at 1, mul, Math_floor.
  eexists; split; [reflexivity|].
  rewrite Qcmult_comm. apply floor_scaled_bounds; assumption.
Qed.

Lemma data_at_in_range (data : list byte) (j : Z) :
  (0 <= j < Z.of_nat (List.length data))%Z ->
  exists z, data_at data (of_Z j) = of_Z z /\ (0 <= z <= 255)%Z.
Proof.
  intros Hj. unfold data_at.
  destruct (array_get_in_range data Hj) as [b ->].
  exists (Z.of_N (Byte.to_N b)). split; [reflexivity|].
  pose proof (Byte.to_N_bounded b). lia.
Qed.

Lemma luminance_bounds (r g b : Z) :
  (0 <= r <= 255)%Z -> (0 <= g <= 255)%Z -> (0 <= b <= 255)%Z ->
  exists q,
    (frac 299 1000 * of_Z r + frac 587 1000 * of_Z g + frac 114 1000 * of_Z b)
    / of_Z 255 = Fin q
    /\ (0 <= q)%Qc /\ (q <= 1)%Qc.
Proof.
  intros Hr Hg Hb. unfold frac, of_Z, mul, add, div.
  change (Qc_eqb (Q2Qc (inject_Z 255)) 0) with false. cbv iota.
  eexists; split; [reflexivity|].
  assert (Hr' : (0 <= inject_Z r /\ inject_Z r <= 255)%Q)
    by (split; [change 0%Q with (inject_Z 0)|change 255%Q with (inject_Z 255)];
        rewrite <- Zle_Qle; lia).
  assert (Hg' : (0 <= inject_Z g /\ inject_Z g <= 255)%Q)
    by (split; [change 0%Q with (inject_Z 0)|change 255%Q with (inject_Z 255)];
        rewrite <- Zle_Qle; lia).
  assert (Hb' : (0 <= inject_Z b /\ inject_Z b <= 255)%Q)
    by (split; [change 0%Q with (inject_Z 0)|change 255%Q with (inject_Z 255)];
        rewrite <- Zle_Qle; lia).
  unfold Qcle. rewrite this_Qcdiv. qc_to_q.
  change (this 0%Qc) with 0%Q. change (this 1%Qc) with 1%Q.
  change (inject_Z 255) with 255%Q.
  split.
  - apply Qle_shift_div_l; [reflexivity|]. lra.
  - apply Qle_shift_div_r; [reflexivity|]. lra.
Qed.

Lemma sampleImageBrightness_unit (img : Image.t) (u v s : Qc) :
  well_formed_image img -> s <> 0%Qc ->
  exists b, sampleImageBrightness (Some img) (Fin u) (Fin v) (Fin s) = Fin b
            /\ (0 <= b)%Qc /\ (b <= 1)%Qc.
Proof.
  intros [Hw [Hh [Hlen _]]] Hs. unfold sampleImageBrightness. cbv zeta.
  assert (Eu : Fin u / Fin s = Fin (u / s)%Qc)
    by (unfold div; rewrite (Qc_eqb_neq Hs); reflexivity).
  assert (Ev : Fin v / Fin s = Fin (v / s)%Qc)
    by (unfold div; rewrite (Qc_eqb_neq Hs); reflexivity).
  rewrite Eu, Ev, !wrap_unit_interval.
  destruct (frac_part_bounds (u / s)) as [Hu0 Hu1].
  destruct (frac_part_bounds (v / s)) as [Hv0 Hv1].
  set (fu := (u / s - Q2Qc (inject_Z (Qfloor (u / s)%Qc)))%Qc) in *.
  set (fv := (v / s - Q2Qc (inject_Z (Qfloor (v / s)%Qc)))%Qc) in *.
  set (W := Z.of_N (Image.width img)). set (H := Z.of_N (Image.height img)).
  change (of_N (Image.width img)) with (of_Z W).
  change (of_N (Image.height img)) with (of_Z H).
  rewrite !sub_of_Z.
  destruct (@floor_unit_scaled fu (W - 1)) as [kx [-> Hkx]];
    [unfold W; lia|assumption|apply Qclt_le_weak; assumption|].
  assert (E1 : of_Z 1 - Fin fv = Fin (1 - fv)%Qc) by reflexivity.
  rewrite E1.
  destruct (@floor_unit_scaled (1 - fv)%Qc (H - 1)) as [ky [-> Hky]].
  - unfold H; lia.
  - qc_to_q. change (this 0%Qc) with 0%Q. change (this 1%Qc) with 1%Q in *. lra.
  - qc_to_q. change (this 0%Qc) with 0%Q in *. change (this 1%Qc) with 1%Q in *. lra.
  - rewrite mul_of_Z, add_of_Z, mul_of_Z, !add_of_Z.
    assert (Hidx : (0 <= (ky * W + kx) * 4
                    /\ (ky * W + kx) * 4 + 3 < Z.of_nat (List.length (Image.data img)))%Z).
    { rewrite Hlen. unfold W, H in *. nia. }
    destruct (@data_at_in_range (Image.data img) ((ky * W + kx) * 4))
      as [r [-> Hr]]; [lia|].
    destruct (@data_at_in_range (Image.data img) ((ky * W + kx) * 4 + 1))
      as [g [-> Hg]]; [lia|].
    destruct (@data_at_in_range (Image.data img) ((ky * W + kx) * 4 + 2))
      as [b [-> Hb]]; [lia|].
    apply luminance_bounds; assumption.
Qed.

(** X2. On a well-formed image, for coordinates [u] and [v] of ordinary
    size (at most [10^6] in magnitude) and a scale of magnitude at least
    [10^-6], the pixel read is inside the raster and the sample lies between
    0 and 1; it is never [NaN]. *)
Theorem sampleImageBrightness_range (img : Image.t) (u v s : Qc) :
  well_formed_image img -> moderate u -> moderate v -> not_tiny s ->
  (of_Z 0 <=? sampleImageBrightness (Some img) (Fin u) (Fin v) (Fin s)) = true
  /\ (sampleImageBrightness (Some img) (Fin u) (Fin v) (Fin s) <=? of_Z 1) = true.
Proof.
  intros Hwf _ _ Hs.
  assert (Hs0 : s <> 0%Qc).
  { intros ->. destruct Hs as [Hs|Hs]; revert Hs; apply Qclt_not_le;
      apply Qc_ltb_lt; vm_compute; reflexivity. }
  destruct (@sampleImageBrightness_unit img u v s Hwf Hs0) as [b [-> [H0 H1]]].
  split; apply Qc_leb_le; assumption.
Qed.

Lemma stripes_well_formed : well_formed_image stripes.
Proof.
  split; [|split; [|split]]; vm_compute; solve [congruence | reflexivity].
Defined.

Lemma sampleImageBrightness_range_witness :
  (of_Z 0 <=? sampleImageBrightness (Some stripes) (Fin (Q2Qc (3 # 4)))
                (Fin (Q2Qc (1 # 3))) (Fin 1%Qc)) = true
  /\ (sampleImageBrightness (Some stripes) (Fin (Q2Qc (3 # 4)))
        (Fin (Q2Qc (1 # 3))) (Fin 1%Qc) <=? of_Z 1) = true.
Proof.
  apply (@sampleImageBrightness_range stripes (Q2Qc (3 # 4)) (Q2Qc (1 # 3)) 1%Qc).
  - apply stripes_well_formed.
  - split; apply Qc_le_by_leb; vm_compute; reflexivity.
  - split; apply Qc_le_by_leb; vm_compute; reflexivity.
  - right. apply Qc_le_by_leb. vm_compute. reflexivity.
Defined.

Lemma Qc_ltb_ge (a b : Qc) : Qc_ltb a b = false <-> (b <= a)%Qc.
Proof.
  split; intros H.
  - apply Qcnot_lt_le. intros E. apply Qc_ltb_lt in E. congruence.
  - destruct (Qc_ltb a b) eqn:E; [|reflexivity].
    apply Qc_ltb_lt in E. exfalso. eapply Qcle_not_lt; eassumption.
Qed.

Lemma abs_le_inv (a : number) (c : Qc) :
  (Math_abs a <=? Fin c) = true ->
  exists q, a = Fin q /\ (- c <= q)%Qc /\ (q <= c)%Qc.
Proof.
  destruct a as [| | |q]; simpl; try discriminate.
  intros H. exists q. split; [reflexivity|].
  destruct (Qc_ltb q 0) eqn:E; simpl in H; apply Qc_leb_le in H.
  - apply Qc_ltb_lt in E. qc_to_q. change (this 0%Qc) with 0%Q in E. split; lra.
  - apply Qc_ltb_ge in E. qc_to_q. change (this 0%Qc) with 0%Q in E. split; lra.
Qed.

Lemma abs_le_intro (q c : Qc) :
  (- c <= q)%Qc -> (q <= c)%Qc -> (Math_abs (Fin q) <=? Fin c) = true.
Proof.
  intros H1 H2. simpl.
  destruct (Qc_ltb q 0) eqn:E; simpl; apply Qc_leb_le; [|assumption].
  qc_to_q. lra.
Qed.

Lemma waveFunction_bounded (Math_sin Math_asin : number -> number)
  (t f ps : Qc) (w : number) :
  sin_bounded Math_sin -> asin_bounded Math_asin ->
  exists q, waveFunction Math_sin Math_asin (Fin t) (Fin f) w (Fin ps) = Fin q
            /\ (- (1) <= q)%Qc /\ (q <= 1)%Qc.
Proof.
  intros Hsin Hasin. unfold waveFunction. cbv zeta.
  assert (Hangle : finite (Fin t * Fin f * Math_PI * of_Z 2 + Fin ps)) by exact I.
  set (angle := Fin t * Fin f * Math_PI * of_Z 2 + Fin ps) in *.
  destruct (abs_le_inv _ _ (Hsin angle Hangle)) as [q [Eq [Hq1 Hq2]]].
  rewrite Eq.
  destruct (w === of_Z 0); [exists q; auto|].
  destruct (w === of_Z 1).
  - simpl. destruct (Qc_ltb q 0) eqn:E; eexists; (split; [reflexivity|]).
    + apply Qc_ltb_lt in E. qc_to_q. change (this 0%Qc) with 0%Q in E.
      change (this 1%Qc) with 1%Q in *. change (inject_Z 1) with 1%Q in *.
      split; nra.
    + apply Qc_ltb_ge in E. qc_to_q. change (this 0%Qc) with 0%Q in E.
      change (this 1%Qc) with 1%Q in *. change (inject_Z 1) with 1%Q in *.
      split; nra.
  - destruct (w === of_Z 2); [|exists q; auto].
    destruct (abs_le_inv _ _ (Hasin q Hq1 Hq2)) as [r [Er [Hr1 Hr2]]].
    rewrite Er. unfold Math_PI, frac, of_Z, div.
    change (Qc_eqb (Q2Qc (inject_Z 2)) 0) with false. cbv iota.
    set (hp := (Q2Qc (884279719003555 # 281474976710656) / Q2Qc (inject_Z 2))%Qc) in *.
    assert (Hhp : (0 < hp)%Qc) by (apply Qc_ltb_lt; vm_compute; reflexivity).
    rewrite (Qc_pos_nonzero Hhp).
    eexists; split; [reflexivity|].
    unfold Qcle, Qclt in *. rewrite this_Qcdiv. rewrite this_Qcopp in *.
    change (this 0%Qc) with 0%Q in Hhp. change (this 1%Qc) with 1%Q.
    split.
    + apply Qle_shift_div_l; [assumption|]. lra.
    + apply Qle_shift_div_r; [assumption|]. lra.
Qed.


Lemma flat_sin_bounded : sin_bounded flat_sin.
Proof. intros a _. vm_compute. reflexivity. Qed.

Lemma flat_asin_bounded : asin_bounded flat_asin.
Proof. intros q _ _. vm_compute. reflexivity. Qed.


(** ** Control points *)

Lemma div_of_Z_Fin (d r : Z) :
  r <> 0%Z -> of_Z d / of_Z r = Fin (Q2Qc (inject_Z d) / Q2Qc (inject_Z r))%Qc.
Proof. intros Hr. unfold of_Z, div. rewrite of_Z_nonzero by assumption. reflexivity. Qed.

Lemma generateControlPoints_explicit (Math_sin Math_asin : number -> number)
  (imageData : option Image.t) (p : RibParams) (ri scale : number) (c : Z) :
  controlPoints p = of_Z c -> (2 <= c)%Z ->
  generateControlPoints Math_sin Math_asin imageData p ri scale
  = Returns (map (fun i : nat =>
                    {| x := sample_depth Math_sin Math_asin imageData p ri scale
                              (Fin (fraction i c));
                       y := Fin (fraction i c) * height p |})
                 (seq 0 (Z.to_nat c))).
Proof.
  intros Hc Hc2. unfold generateControlPoints. rewrite Hc, for_lt_of_Z.
  cbn [bind]. f_equal. rewrite map_map. apply map_ext. intros i.
  unfold of_nat. rewrite sub_of_Z, div_of_Z_Fin by lia. reflexivity.
Qed.

Lemma fraction_first (c : Z) : (2 <= c)%Z -> fraction 0 c = 0%Qc.
Proof.
  intros Hc. unfold fraction. apply Qc_is_canon. rewrite this_Qcdiv, !this_Q2Qc.
  unfold Qdiv. apply Qmult_0_l.
Qed.

Lemma fraction_last (c : Z) : (2 <= c)%Z -> fraction (Z.to_nat c - 1) c = 1%Qc.
Proof.
  intros Hc. unfold fraction.
  replace (Z.of_nat (Z.to_nat c - 1)) with (c - 1)%Z by lia.
  apply Qc_is_canon. rewrite this_Qcdiv, !this_Q2Qc.
  apply Qmult_inv_r. intros E. unfold Qeq in E. simpl in E. lia.
Qed.

Lemma fraction_increasing (i : nat) (c : Z) :
  (2 <= c)%Z -> (fraction i c < fraction (S i) c)%Qc.
Proof.
  intros Hc. unfold fraction, Qclt. rewrite !this_Qcdiv, !this_Q2Qc.
  assert (Hpos : (0 < inject_Z (c - 1))%Q)
    by (change 0%Q with (inject_Z 0); rewrite <- Zlt_Qlt; lia).
  unfold Qdiv. apply Qmult_lt_compat_r; [apply Qinv_lt_0_compat; assumption|].
  rewrite <- Zlt_Qlt. lia.
Qed.



(** ** Where a dense profile starts and ends *)

Lemma getPoint_first_form (points : list Vector2) (p : Vector2) :
  (2 <= List.length points)%nat -> nth_error points 0 = Some p ->
  exists q2 q3,
    In q2 points /\ In q3 points
    /\ getPoint points (of_Z 0)
       = Returns {| x := CatmullRom (of_Z 0) (x p) (x p) (x q2) (x q3);
                    y := CatmullRom (of_Z 0) (y p) (y p) (y q2) (y q3) |}.
Proof.
  intros Hn Hp.
  set (n := Z.of_nat (List.length points)).
  assert (E : Math_floor ((array_length points - of_Z 1) * of_Z 0) = of_Z 0).
  { rewrite array_length_of_Z, sub_of_Z, mul_of_Z, Z.mul_0_r.
    apply Math_floor_of_Z. }
  rewrite (getPoint_unfold _ _ E). fold n.
  rewrite array_length_of_Z, sub_of_Z, mul_of_Z, Z.mul_0_r, sub_of_Z.
  change (0 - 0)%Z with 0%Z. change (0 =? 0)%Z with true. cbv iota.
  rewrite (array_get_of_Z points (k := 0)) by lia. simpl Z.to_nat. rewrite Hp.
  destruct (array_get_in_range points (j := if (n - 2 <? 0)%Z then n - 1 else 0 + 1))
    as [q2 E2]; [fold n; destruct (Z.ltb_spec (n - 2) 0); lia|].
  destruct (array_get_in_range points (j := if (n - 3 <? 0)%Z then n - 1 else 0 + 2))
    as [q3 E3]; [fold n; destruct (Z.ltb_spec (n - 3) 0); lia|].
  rewrite E2, E3. cbn [property bind].
  rewrite array_get_of_Z in E2, E3
    by (try destruct (Z.ltb_spec (n - 2) 0); try destruct (Z.ltb_spec (n - 3) 0); lia).
  exists q2, q3. repeat split; try (eapply nth_error_In; eassumption).
Qed.

Lemma getPoint_last_form (points : list Vector2) (p : Vector2) :
  (2 <= List.length points)%nat ->
  nth_error points (List.length points - 1) = Some p ->
  exists q0,
    In q0 points
    /\ getPoint points (of_Z 1)
       = Returns {| x := CatmullRom (of_Z 0) (x q0) (x p) (x p) (x p);
                    y := CatmullRom (of_Z 0) (y q0) (y p) (y p) (y p) |}.
Proof.
  intros Hn Hp.
  set (n := Z.of_nat (List.length points)).
  assert (E : Math_floor ((array_length points - of_Z 1) * of_Z 1) = of_Z (n - 1)).
  { rewrite array_length_of_Z, sub_of_Z, mul_of_Z, Z.mul_1_r.
    apply Math_floor_of_Z. }
  rewrite (getPoint_unfold _ _ E). fold n.
  rewrite array_length_of_Z, sub_of_Z, mul_of_Z, Z.mul_1_r, sub_of_Z. fold n.
  rewrite Z.sub_diag.
  assert (Hn' : (2 <= n)%Z) by (unfold n; lia).
  destruct (Z.eqb_spec (n - 1) 0); [lia|].
  destruct (Z.ltb_spec (n - 2) (n - 1)); [|lia].
  destruct (Z.ltb_spec (n - 3) (n - 1)); [|lia].
  destruct (array_get_in_range points (j := n - 1 - 1)) as [q0 E0]; [fold n; lia|].
  rewrite E0. rewrite array_get_of_Z in E0 by lia.
  rewrite (array_get_of_Z points (k := n - 1)) by lia.
  replace (Z.to_nat (n - 1)) with (List.length points - 1)%nat by (unfold n; lia).
  rewrite Hp. cbn [property bind].
  exists q0. split; [eapply nth_error_In; eassumption|reflexivity].
Qed.

Lemma CatmullRom_knot_value (a b c d : number) :
  finite a -> finite b -> finite c -> finite d ->
  CatmullRom (of_Z 0) a b c d = b.
Proof.
  intros Ha Hb Hc Hd.
  apply finite_inv in Ha, Hb, Hc, Hd.
  destruct Ha as [? ->], Hb as [? ->], Hc as [? ->], Hd as [? ->].
  apply CatmullRom_weight_0.
Qed.

(** A dense curve begins and ends at the positions of the first and the
    last control point as soon as the control positions are real, whatever
    the depths are. *)
Lemma evaluateSplineCurve_span (cps prof : list Vector2) (r : Z) (first last : Vector2) :
  (2 <= List.length cps)%nat -> Forall (fun q => finite (y q)) cps -> (1 <= r)%Z ->
  evaluateSplineCurve cps (of_Z r) = Returns prof ->
  nth_error cps 0 = Some first ->
  nth_error cps (List.length cps - 1) = Some last ->
  List.length prof = (Z.to_nat r + 1)%nat
  /\ option_map y (nth_error prof 0) = Some (y first)
  /\ option_map y (nth_error prof (Z.to_nat r)) = Some (y last).
Proof.
  intros Hn Hfin Hr Hprof Hfirst Hlast.
  assert (Hy : forall q, In q cps -> finite (y q))
    by (apply Forall_forall; assumption).
  assert (Hlen : List.length prof = (Z.to_nat r + 1)%nat).
  { unfold evaluateSplineCurve, getPoints in Hprof. rewrite for_le_of_Z in Hprof.
    cbn [bind] in Hprof. apply for_each_length in Hprof.
    rewrite Hprof, length_map, length_seq. lia. }
  split; [assumption|]. split.
  - destruct (@evaluateSplineCurve_nth cps prof r 0 Hprof) as [pt [Hpt Hget]]; [lia|].
    rewrite Hpt. cbn [option_map]. f_equal.
    change (of_nat 0) with (of_Z 0) in Hget.
    rewrite div_zero_of_Z in Hget by lia.
    destruct (@getPoint_first_form _ _ Hn Hfirst) as [q2 [q3 [H2 [H3 E]]]].
    rewrite E in Hget. inversion Hget; subst pt. cbn [y].
    apply nth_error_In in Hfirst.
    apply CatmullRom_knot_value; auto.
  - destruct (@evaluateSplineCurve_nth cps prof r (Z.to_nat r) Hprof)
      as [pt [Hpt Hget]]; [lia|].
    rewrite Hpt. cbn [option_map]. f_equal.
    unfold of_nat in Hget. rewrite Z2Nat.id in Hget by lia.
    rewrite div_of_Z_self in Hget by lia.
    destruct (@getPoint_last_form _ _ Hn Hlast) as [q0 [H0 E]].
    rewrite E in Hget. inversion Hget; subst pt. cbn [y].
    apply nth_error_In in Hlast.
    apply CatmullRom_knot_value; auto.
Qed.

(** *** The corner split *)

Lemma Qc_trunc_of_Z (j : Z) : Qc_trunc (Q2Qc (inject_Z j)) = j.
Proof.
  unfold Qc_trunc. destruct (Qc_ltb _ 0).
  - rewrite Qceiling_Q2Qc. apply Qceiling_Z.
  - rewrite Qfloor_Q2Qc. apply Qfloor_Z.
Qed.

Lemma relative_index_of_Z (len j : Z) :
  (0 <= j)%Z -> relative_index len (of_Z j) = Z.min j len.
Proof.
  intros Hj. unfold relative_index, of_Z, ToIntegerOrInfinity.
  rewrite Qc_trunc_of_Z. destruct (Z.ltb_spec j 0); [lia|reflexivity].
Qed.

Lemma slice_prefix {A : Type} (l : list A) (j : Z) :
  (0 <= j)%Z -> slice l (of_Z 0) (Some (of_Z j)) = firstn (Z.to_nat j) l.
Proof.
  intros Hj. unfold slice. cbv zeta.
  rewrite !relative_index_of_Z by lia.
  replace (Z.to_nat (Z.min 0 (Z.of_nat (List.length l)))) with 0%nat by lia.
  cbn [skipn].
  destruct (Z.le_ge_cases j (Z.of_nat (List.length l))) as [H|H].
  - f_equal. lia.
  - rewrite !firstn_all2 by lia. reflexivity.
Qed.

Lemma slice_suffix {A : Type} (l : list A) (k : Z) :
  (0 <= k)%Z -> slice l (of_Z k) None = skipn (Z.to_nat k) l.
Proof.
  intros Hk. unfold slice. cbv zeta. rewrite relative_index_of_Z by lia.
  destruct (Z.le_ge_cases k (Z.of_nat (List.length l))) as [H|H].
  - replace (Z.min k (Z.of_nat (List.length l))) with k by lia.
    apply firstn_all2. rewrite length_skipn. lia.
  - rewrite (skipn_all2 (n := Z.to_nat k)) by lia.
    replace (Z.min k (Z.of_nat (List.length l))) with (Z.of_nat (List.length l))
      by lia.
    rewrite Nat2Z.id, skipn_all. apply firstn_nil.
Qed.

Lemma Math_round_nonneg (q : Qc) :
  (0 <= q)%Qc -> exists k, Math_round (Fin q) = of_Z k /\ (0 <= k)%Z.
Proof.
  intros Hq. unfold Math_round. eexists; split; [reflexivity|].
  rewrite <- (Qfloor_Z 0). apply Qfloor_resp_le.
  unfold Qcle in Hq. rewrite this_Qcplus, this_Q2Qc.
  change (this 0%Qc) with 0%Q in Hq. change (inject_Z 0) with 0%Q. lra.
Qed.

Lemma split_index_nonneg (h cr : Qc) (len : nat) :
  (0 < h)%Qc -> (0 <= cr)%Qc ->
  exists k, Math_round (Fin h / (Fin h + Fin cr) * of_nat len) = of_Z k
            /\ (0 <= k)%Z.
Proof.
  intros Hh Hcr. unfold add, div.
  assert (Hpos : (0 < h + cr)%Qc).
  { qc_to_q. change (this 0%Qc) with 0%Q in *. lra. }
  rewrite (Qc_pos_nonzero Hpos). unfold of_nat, of_Z, mul.
  apply Math_round_nonneg.
  unfold Qcle, Qclt in *. rewrite this_Qcmult, this_Qcdiv, this_Q2Qc.
  change (this 0%Qc) with 0%Q in *.
  apply Qmult_le_0_compat.
  - apply Qle_shift_div_l; [assumption|]. lra.
  - rewrite this_Q2Qc. change 0%Q with (inject_Z 0). rewrite <- Zle_Qle. lia.
Qed.

Lemma evaluateSplineCurve_length (cps prof : list Vector2) (m : Z) :
  evaluateSplineCurve cps (of_Z m) = Returns prof ->
  List.length prof = Z.to_nat (m + 1).
Proof.
  unfold evaluateSplineCurve, getPoints. rewrite for_le_of_Z. cbn [bind].
  intros H. apply for_each_length in H.
  rewrite H, length_map, length_seq. reflexivity.
Qed.

(** ** More on the generator *)

Lemma round_scaled_ge (c : Z) (h cr : Qc) :
  (1 <= c)%Z -> (0 < h)%Qc -> (0 <= cr)%Qc ->
  exists m, Math_round (of_Z c * ((Fin h + Fin cr) / Fin h)) = of_Z m /\ (c <= m)%Z.
Proof.
  intros Hc Hh Hcr. unfold of_Z at 1, add, div, mul.
  rewrite (Qc_pos_nonzero Hh). unfold Math_round.
  eexists; split; [reflexivity|].
  rewrite <- (Qfloor_Z c) at 1. apply Qfloor_resp_le.
  rewrite this_Qcplus, this_Qcmult, this_Qcdiv, this_Qcplus, !this_Q2Qc.
  unfold Qclt, Qcle in *. simpl in Hh, Hcr.
  assert (H1 : (1 <= (this h + this cr) / this h)%Q).
  { apply Qle_shift_div_l; [assumption|]. rewrite Qmult_1_l.
    rewrite <- (Qplus_0_r (this h)) at 1. apply Qplus_le_r. assumption. }
  assert (H2 : (0 <= inject_Z c)%Q)
    by (change 0%Q with (inject_Z 0); rewrite <- Zle_Qle; lia).
  set (k := ((this h + this cr) / this h)%Q) in *.
  assert (H3 : (inject_Z c <= inject_Z c * k)%Q) by nra.
  assert (H4 : (0 <= 1 # 2)%Q) by discriminate.
  lra.
Qed.

Lemma Math_min_of_ordered (a b : number) :
  Math_min (Math_min a b) (Math_max a b) = Math_min a b.
Proof.
  destruct a as [| | |x], b as [| | |y]; try reflexivity.
  unfold Math_min, Math_max, le.
  destruct (Qc_leb x y) eqn:E; cbv iota; [rewrite E; reflexivity|].
  rewrite (Qc_leb_total _ _ E). reflexivity.
Qed.

Lemma Math_max_of_ordered (a b : number) :
  Math_max (Math_min a b) (Math_max a b) = Math_max a b.
Proof.
  destruct a as [| | |x], b as [| | |y]; try reflexivity.
  unfold Math_min, Math_max, le.
  destruct (Qc_leb x y) eqn:E; cbv iota; [rewrite E; reflexivity|].
  rewrite (Qc_leb_total _ _ E). reflexivity.
Qed.

Section GeneratorFacts.

Variables Math_sin Math_asin : number -> number.
Variable imageData : option Image.t.

Local Abbreviation generateControlPoints :=
  (generateControlPoints Math_sin Math_asin imageData).
Local Abbreviation generateControlPointsLPath :=
  (generateControlPointsLPath Math_sin Math_asin imageData).
Local Abbreviation rib_iteration := (rib_iteration Math_sin Math_asin imageData).
Local Abbreviation generateRibProfiles :=
  (generateRibProfiles Math_sin Math_asin imageData).

(** X7. Generation is idempotent on the object it has normalised: a second
    call on the parameter object left by a first call returns the same
    outcome and leaves the object unchanged. *)
Theorem generateRibProfiles_idempotent (p : RibParams) (mode : InstallationMode)
  (scale : number) :
  generateRibProfiles (fst (generateRibProfiles p mode scale)) mode scale
  = generateRibProfiles p mode scale.
Proof.
  unfold generateRibProfiles. cbv zeta. cbn [fst].
  cbn [assign_depths minDepth maxDepth].
  rewrite Math_min_of_ordered, Math_max_of_ordered. reflexivity.
Qed.

(** X8. When [0 < count] does not hold ([count] zero, negative or [NaN]) the
    generator returns two empty arrays, whatever the other parameters are:
    nothing is sampled, so nothing can throw. *)
Theorem generateRibProfiles_no_ribs (p : RibParams) (mode : InstallationMode)
  (scale : number) :
  (of_Z 0 <? count p) = false ->
  snd (generateRibProfiles p mode scale)
  = Returns {| ribProfiles := []; ceilingProfilesArr := [] |}.
Proof.
  intros Hcount. unfold generateRibProfiles. cbv zeta. cbn [snd].
  set (p' := assign_depths p _ _). change (count p') with (count p).
  destruct (count p) as [| | |q]; try reflexivity; [discriminate|].
  unfold for_lt. unfold of_Z, lt in Hcount. apply Qc_ltb_ge in Hcount.
  assert (Hc : (Qceiling q <= 0)%Z).
  { rewrite <- (Qceiling_Z 0). apply Qceiling_resp_le.
    unfold Qcle in Hcount. rewrite this_Q2Qc in Hcount. exact Hcount. }
  replace (Z.to_nat (Qceiling q)) with 0%nat by lia. reflexivity.
Qed.

Lemma rib_iteration_straight_inv (p : RibParams) (mode : InstallationMode)
  (scale i : number) (rp : RibProfile.t) (pushed : list (list Vector2)) :
  mode <> both ->
  rib_iteration p mode scale i = Returns (rp, pushed) ->
  exists cps prof,
    generateControlPoints p i scale = Returns cps
    /\ evaluateSplineCurve cps (displayResolution p) = Returns prof
    /\ pushed = []
    /\ RibProfile.profile rp = map plain prof
    /\ RibProfile.controlPoints rp = map plain cps.
Proof.
  intros Hmode H. unfold rib_iteration in H.
  destruct mode; [| |contradiction].
  all: destruct (generateControlPoints p i scale) as [cps| |] eqn:E1;
    cbn [bind] in H; try discriminate;
    destruct (evaluateSplineCurve cps (displayResolution p)) as [prof| |] eqn:E2;
    cbn [bind] in H; try discriminate;
    inversion H; subst; clear H;
    exists cps, prof; cbn [RibProfile.profile RibProfile.controlPoints];
    repeat split; solve [reflexivity | assumption].
Qed.

Lemma rib_iteration_straight (p : RibParams) (mode : InstallationMode)
  (scale i : number) (rp : RibProfile.t) (pushed : list (list Vector2))
  (c r : Z) (h : Qc) :
  mode <> both ->
  controlPoints p = of_Z c -> (2 <= c)%Z ->
  displayResolution p = of_Z r -> (1 <= r)%Z ->
  height p = Fin h ->
  rib_iteration p mode scale i = Returns (rp, pushed) ->
  pushed = [] /\ straight_rib p c r rp.
Proof.
  intros Hmode Hc Hc2 Hr Hr1 Hh H.
  destruct (@rib_iteration_straight_inv _ _ _ _ _ _ Hmode H)
    as [cps [prof [Hcps [Hprof [-> [Eprof Ecps]]]]]].
  split; [reflexivity|].
  rewrite (@generateControlPoints_explicit Math_sin Math_asin imageData p i scale c
             Hc Hc2) in Hcps.
  apply Returns_inj in Hcps. rename Hcps into Ecps'.
  assert (Hlen : List.length cps = Z.to_nat c)
    by (rewrite <- Ecps', length_map, length_seq; reflexivity).
  assert (Hfin : Forall (fun q => finite (y q)) cps).
  { rewrite <- Ecps'. apply Forall_forall. intros q Hq.
    apply in_map_iff in Hq. destruct Hq as [k [<- _]]. cbn [y].
    rewrite Hh. exact I. }
  assert (Hfirst : nth_error cps 0
                   = Some {| x := sample_depth Math_sin Math_asin imageData p i scale
                                    (Fin (fraction 0 c));
                             y := Fin (fraction 0 c) * height p |}).
  { rewrite <- Ecps', nth_error_map, nth_error_seq.
    destruct (Nat.ltb_spec 0 (Z.to_nat c)); [reflexivity|lia]. }
  assert (Hlast : nth_error cps (List.length cps - 1)
                  = Some {| x := sample_depth Math_sin Math_asin imageData p i scale
                                   (Fin (fraction (Z.to_nat c - 1) c));
                            y := Fin (fraction (Z.to_nat c - 1) c) * height p |}).
  { rewrite Hlen. rewrite <- Ecps', nth_error_map, nth_error_seq.
    destruct (Nat.ltb_spec (Z.to_nat c - 1) (Z.to_nat c)); [reflexivity|lia]. }
  rewrite Hr in Hprof.
  assert (Hn2 : (2 <= List.length cps)%nat) by lia.
  destruct (@evaluateSplineCurve_span cps prof r _ _ Hn2 Hfin Hr1 Hprof Hfirst Hlast)
    as [Hplen [Hp0 Hp1]].
  cbn [y] in Hp0, Hp1.
  rewrite fraction_first in Hp0 by assumption.
  rewrite fraction_last in Hp1 by assumption.
  unfold straight_rib. rewrite Eprof, Ecps, !length_map, !nth_error_map.
  split; [assumption|]. split; [assumption|].
  split.
  - destruct (nth_error prof 0) as [q|]; [|discriminate].
    cbn [option_map] in *. inversion Hp0 as [E]. cbn [plain y]. rewrite E, Hh.
    f_equal. unfold mul, of_Z. f_equal.
    change (Q2Qc (inject_Z 0)) with 0%Qc. ring.
  - destruct (nth_error prof (Z.to_nat r)) as [q|]; [|discriminate].
    cbn [option_map] in *. inversion Hp1 as [E]. cbn [plain y]. rewrite E, Hh.
    f_equal. unfold mul. f_equal. ring.
Qed.

Lemma straight_iterations (p : RibParams) (mode : InstallationMode) (scale : number)
  (ixs : list number) (rs : list (RibProfile.t * list (list Vector2)))
  (c r : Z) (h : Qc) :
  mode <> both ->
  controlPoints p = of_Z c -> (2 <= c)%Z ->
  displayResolution p = of_Z r -> (1 <= r)%Z ->
  height p = Fin h ->
  Forall2 (fun i res => rib_iteration p mode scale i = Returns res) ixs rs ->
  List.concat (map snd rs) = [] /\ Forall (straight_rib p c r) (map fst rs).
Proof.
  intros Hmode Hc Hc2 Hr Hr1 Hh.
  induction 1 as [|i [rp pushed] ixs rs Hi _ [IH1 IH2]]; [split; constructor|].
  destruct (@rib_iteration_straight p mode scale i rp pushed c r h) as [-> Hrp];
    try assumption.
  cbn [map fst snd List.concat app]. split; [assumption|].
  constructor; assumption.
Qed.


Lemma rib_iteration_corner (p : RibParams) (scale i : number)
  (rp : RibProfile.t) (pushed : list (list Vector2)) (r : Z) (h cr : Qc) :
  displayResolution p = of_Z r -> (1 <= r)%Z ->
  height p = Fin h -> ceilingRun p = Fin cr -> (0 < h)%Qc -> (0 <= cr)%Qc ->
  rib_iteration p both scale i = Returns (rp, pushed) ->
  exists segment, pushed = [segment] /\ corner_overlap p r rp segment.
Proof.
  intros Hr Hr1 Hh Hcr Hh0 Hcr0 H. unfold rib_iteration in H.
  destruct (generateControlPointsLPath p i (height p + ceilingRun p) scale)
    as [cps| |]; cbn [bind] in H; try discriminate.
  destruct (evaluateSplineCurve cps _) as [full| |] eqn:Hfull;
    cbn [bind] in H; try discriminate.
  apply Returns_inj in H.
  unfold corner_overlap.
  rewrite Hr, Hh, Hcr in *.
  destruct (round_scaled_ge Hr1 Hh0 Hcr0) as [m [Em Hm]].
  rewrite Em in *.
  apply evaluateSplineCurve_length in Hfull.
  unfold array_length in H.
  destruct (@split_index_nonneg h cr (List.length full) Hh0 Hcr0) as [k [Ek Hk]].
  rewrite Ek in H. rewrite add_of_Z in H.
  rewrite slice_prefix, slice_suffix in H by lia.
  apply (f_equal (fun v => (RibProfile.profile (fst v), snd v))) in H.
  cbn [fst snd RibProfile.profile] in H.
  injection H as Eprof Epushed.
  eexists; split; [symmetry; exact Epushed|].
  rewrite <- Eprof, !length_map, length_firstn, length_skipn.
  split.
  - intros Hne.
    assert (Hlt : (Z.to_nat k < List.length full)%nat).
    { destruct (Nat.lt_ge_cases (Z.to_nat k) (List.length full)) as [Hlt|Hge];
        [assumption|].
      exfalso. apply Hne. rewrite skipn_all2 by assumption. reflexivity. }
    split.
    + lia.
    + destruct (nth_error full (Z.to_nat k)) as [c0|] eqn:Ec;
        [|apply nth_error_None in Ec; lia].
      exists (plain c0). split.
      * rewrite nth_error_map.
        replace (Init.Nat.min (Z.to_nat (k + 1)) (List.length full) - 1)%nat
          with (Z.to_nat k) by lia.
        rewrite nth_error_firstn.
        destruct (Nat.ltb_spec (Z.to_nat k) (Z.to_nat (k + 1))); [|lia].
        rewrite Ec. reflexivity.
      * rewrite nth_error_map, nth_error_skipn, Nat.add_0_r, Ec. reflexivity.
  - intros He. apply map_eq_nil in He.
    assert (Hge : (List.length full <= Z.to_nat k)%nat).
    { destruct (Nat.lt_ge_cases (Z.to_nat k) (List.length full)) as [Hlt|Hge];
        [|assumption].
      exfalso. apply (f_equal (@List.length Vector2)) in He.
      rewrite length_skipn in He. simpl in He. lia. }
    lia.
Qed.

Lemma corner_iterations (p : RibParams) (scale : number) (ixs : list number)
  (rs : list (RibProfile.t * list (list Vector2))) (r : Z) (h cr : Qc) :
  displayResolution p = of_Z r -> (1 <= r)%Z ->
  height p = Fin h -> ceilingRun p = Fin cr -> (0 < h)%Qc -> (0 <= cr)%Qc ->
  Forall2 (fun i res => rib_iteration p both scale i = Returns res) ixs rs ->
  forall k rp, nth_error (map fst rs) k = Some rp ->
    exists segment,
      nth_error (List.concat (map snd rs)) k = Some segment
      /\ corner_overlap p r rp segment.
Proof.
  intros Hr Hr1 Hh Hcr Hh0 Hcr0.
  induction 1 as [|i [rp0 pushed0] ixs rs Hi _ IH].
  - intros [|k] rp E; discriminate.
  - destruct (@rib_iteration_corner p scale i rp0 pushed0 r h cr)
      as [seg0 [-> Hov]]; try assumption.
    cbn [map fst snd List.concat app].
    intros [|k] rp E; cbn [nth_error] in *.
    + apply (f_equal (fun o => match o with Some v => v | None => rp0 end)) in E.
      subst rp. eauto.
    + apply IH. assumption.
Qed.


End GeneratorFacts.

(** ** The sheet layout *)

Lemma Q_div_mul (a b : Q) : (0 < b)%Q -> (a / b * b == a)%Q.
Proof. intros Hb. field. intros E. rewrite E in Hb. discriminate. Qed.

Lemma Q_div_le (a b c : Q) : (0 < b)%Q -> (a / b <= c)%Q -> (a <= c * b)%Q.
Proof.
  intros Hb H. rewrite <- (Q_div_mul a Hb). apply Qmult_le_compat_r; [assumption|].
  apply Qlt_le_weak. assumption.
Qed.

Lemma Q_le_div (a b c : Q) : (0 < b)%Q -> (c <= a / b)%Q -> (c * b <= a)%Q.
Proof.
  intros Hb H. rewrite <- (Q_div_mul a Hb). apply Qmult_le_compat_r; [assumption|].
  apply Qlt_le_weak. assumption.
Qed.

Lemma Q_div_lt (a b c : Q) : (0 < b)%Q -> (a / b < c)%Q -> (a < c * b)%Q.
Proof.
  intros Hb H. rewrite <- (Q_div_mul a Hb). apply Qmult_lt_compat_r; assumption.
Qed.

Lemma Q_lt_div (a b c : Q) : (0 < b)%Q -> (c < a / b)%Q -> (c * b < a)%Q.
Proof.
  intros Hb H. rewrite <- (Q_div_mul a Hb). apply Qmult_lt_compat_r; assumption.
Qed.

Lemma Math_max_of_Z (a b : Z) : Math_max (of_Z a) (of_Z b) = of_Z (Z.max a b).
Proof.
  unfold Math_max, of_Z, le, Qc_leb. rewrite Qc_compare_inject_Z.
  destruct (Z.compare_spec a b); f_equal; f_equal; f_equal; lia.
Qed.

Lemma Math_ceil_div_of_Z (a m : Z) :
  (0 < m)%Z ->
  exists s, Math_ceil (of_Z a / of_Z m) = of_Z s
            /\ (a <= s * m)%Z /\ ((s - 1) * m < a)%Z.
Proof.
  intros Hm. rewrite div_of_Z_Fin by lia. unfold Math_ceil.
  eexists; split; [reflexivity|].
  set (x := (Q2Qc (inject_Z a) / Q2Qc (inject_Z m))%Qc).
  assert (Ex : (this x == inject_Z a / inject_Z m)%Q)
    by (unfold x; rewrite this_Qcdiv, !this_Q2Qc; reflexivity).
  assert (H1 : (inject_Z a / inject_Z m <= inject_Z (Qceiling x))%Q)
    by (rewrite <- Ex; apply Qle_ceiling).
  assert (H2 : (inject_Z (Qceiling x - 1) < inject_Z a / inject_Z m)%Q)
    by (rewrite <- Ex; apply Qceiling_lt).
  assert (Hpos : (0 < inject_Z m)%Q)
    by (change 0%Q with (inject_Z 0); rewrite <- Zlt_Qlt; lia).
  split.
  - apply Q_div_le in H1; [|assumption].
    rewrite <- inject_Z_mult, <- Zle_Qle in H1. exact H1.
  - apply Q_lt_div in H2; [|assumption].
    rewrite <- inject_Z_mult, <- Zlt_Qlt in H2. exact H2.
Qed.

Section PricingFacts.

Variable Number_toString : Qc -> string.

Local Abbreviation calculatePricing := (calculatePricing Number_toString).


(** X12. Ribs deeper than a sheet is wide ([maxDepth > 48]): [ribsPerSheet]
    is reported as 0, and the layout still allots one sheet to every
    section, [sheetsNeeded = count * sectionsPerRib]. *)
Theorem calculatePricing_deep_ribs (p : RibParams) (mode : InstallationMode)
  (led : bool) (n : Z) (d L : Qc) :
  count p = of_Z n -> maxDepth p = Fin d -> (Q2Qc (inject_Z 48) < d)%Qc ->
  ribLength (snd (calculatePricing p mode led)) = Fin L ->
  ribsPerSheet (snd (calculatePricing p mode led)) = of_Z 0
  /\ sheetsNeeded (snd (calculatePricing p mode led))
     = count p * sectionsPerRib (snd (calculatePricing p mode led)).
Proof.
  intros Hn Hd Hd48 ERL.
  assert (Hd0 : (0 < d)%Qc).
  { unfold Qclt in *. rewrite this_Q2Qc in Hd48.
    change (this 0%Qc) with 0%Q. change (inject_Z 48) with 48%Q in Hd48. lra. }
  assert (E1 : ribsPerSheet (snd (calculatePricing p mode led)) = of_Z 0).
  { unfold calculatePricing. cbn [snd ribsPerSheet]. rewrite Hd.
    unfold SHEET_WIDTH, of_Z at 1, div. rewrite (Qc_pos_nonzero Hd0).
    unfold Math_floor. f_equal. apply Qfloor_unique.
    - rewrite this_Qcdiv, this_Q2Qc. unfold Qclt in Hd0.
      change (this 0%Qc) with 0%Q in Hd0. change (inject_Z 0) with 0%Q.
      apply Qle_shift_div_l; [assumption|]. rewrite Qmult_0_l. discriminate.
    - rewrite this_Qcdiv, this_Q2Qc. unfold Qclt in Hd0, Hd48.
      rewrite this_Q2Qc in Hd48. change (this 0%Qc) with 0%Q in Hd0.
      apply Qlt_shift_div_r; [assumption|].
      change (inject_Z (0 + 1)) with 1%Q. rewrite Qmult_1_l. exact Hd48. }
  split; [assumption|].
  transitivity (Math_ceil (count p * sectionsPerRib (snd (calculatePricing p mode led))
                           / Math_max (ribsPerSheet (snd (calculatePricing p mode led)))
                                      (of_Z 1))); [destruct mode; reflexivity|].
  assert (E2 : sectionsPerRib (snd (calculatePricing p mode led))
               = of_Z (Qceiling (L / Q2Qc (inject_Z 144))%Qc)).
  { transitivity (Math_ceil (ribLength (snd (calculatePricing p mode led))
                             / SHEET_HEIGHT)); [destruct mode; reflexivity|].
    rewrite ERL. reflexivity. }
  rewrite E1, E2, Hn, mul_of_Z, Math_max_of_Z.
  change (Z.max 0 1) with 1%Z.
  destruct (@Math_ceil_div_of_Z (n * Qceiling (L / Q2Qc (inject_Z 144))%Qc) 1)
    as [sh [-> [H3 H4]]]; [lia|].
  f_equal. lia.
Qed.

End PricingFacts.

(** ** CSV export *)

Lemma string_app_assoc (a b c : string) : ((a ++ b) ++ c = a ++ (b ++ c))%string.
Proof. induction a as [|ch a IH]; simpl; [reflexivity|]. rewrite IH. reflexivity. Qed.

Section CsvFacts.

Variable Number_toString : Qc -> string.

Local Abbreviation exportCSV := (exportCSV Number_toString).
Local Abbreviation calculatePricing := (calculatePricing Number_toString).
Local Abbreviation toFixed2 := (toFixed2 Number_toString).
Local Abbreviation csv_price_lines := (csv_price_lines Number_toString).


End CsvFacts.

(** ** From generation to export *)

Section ExportFacts.

Variables Math_sin Math_asin : number -> number.
Variable Number_toString : Qc -> string.
Variable imageData : option Image.t.

Local Abbreviation rib_iteration := (rib_iteration Math_sin Math_asin imageData).
Local Abbreviation generateRibProfiles :=
  (generateRibProfiles Math_sin Math_asin imageData).
Local Abbreviation exportDXF := (exportDXF Number_toString).
Local Abbreviation handleExportDXF := (handleExportDXF Number_toString).

Lemma rib_iteration_profile_nonempty (p : RibParams) (mode : InstallationMode)
  (scale i : number) (rp : RibProfile.t) (pushed : list (list Vector2)) (r : Z) :
  displayResolution p = of_Z r -> (1 <= r)%Z -> corner_ok p mode ->
  rib_iteration p mode scale i = Returns (rp, pushed) ->
  no_points rp = false.
Proof.
  intros Hr Hr1 Hcorner H.
  assert (Hlen : (1 <= List.length (RibProfile.profile rp))%nat).
  { destruct (InstallationMode_eq_dec mode both) as [->|Hmode].
    - destruct (Hcorner eq_refl) as [h [cr [Hh [Hcr [Hh0 Hcr0]]]]].
      destruct (@rib_iteration_corner Math_sin Math_asin imageData p scale i rp
                  pushed r h cr Hr Hr1 Hh Hcr Hh0 Hcr0 H) as [seg [_ [Hne He]]].
      destruct seg as [|s0 seg].
      + specialize (He eq_refl). lia.
      + destruct Hne as [_ [corner [Hc _]]]; [discriminate|].
        destruct (RibProfile.profile rp); [discriminate|simpl; lia].
    - destruct (@rib_iteration_straight_inv Math_sin Math_asin imageData
                  p mode scale i rp pushed Hmode H)
        as [cps [prof [_ [Hprof [_ [Eprof _]]]]]].
      rewrite Hr in Hprof. apply evaluateSplineCurve_length in Hprof.
      rewrite Eprof, length_map. lia. }
  unfold no_points. destruct (RibProfile.profile rp); [simpl in Hlen; lia|reflexivity].
Qed.

Lemma iterations_nonempty (p : RibParams) (mode : InstallationMode) (scale : number)
  (ixs : list number) (rs : list (RibProfile.t * list (list Vector2))) (r : Z) :
  displayResolution p = of_Z r -> (1 <= r)%Z -> corner_ok p mode ->
  Forall2 (fun i res => rib_iteration p mode scale i = Returns res) ixs rs ->
  existsb no_points (map fst rs) = false.
Proof.
  intros Hr Hr1 Hcorner.
  induction 1 as [|i [rp pushed] ixs rs Hi _ IH]; [reflexivity|].
  cbn [map fst existsb]. rewrite IH.
  rewrite (@rib_iteration_profile_nonempty p mode scale i rp pushed r); auto.
Qed.

Lemma exportDXF_returns (ribs : list RibProfile.t) (q : RibParams) :
  existsb no_points ribs = false -> exists dxf, exportDXF ribs q = Returns dxf.
Proof.
  intros H. unfold exportDXF. cbv zeta. rewrite dxf_groups.
  unfold indexed. rewrite existsb_indexed_from, H. cbn [bind].
  eexists; reflexivity.
Qed.

(** X14. What the generator returns can be exported.  At the sizes of C1
    no generated rib has an empty profile, so the DXF export of the
    generated ribs, with any parameter object, does not throw, and the export
    button hands [downloadFile] that document under the name
    [mr-walls-ribs.dxf]. *)
Theorem generated_ribs_export (p q : RibParams) (mode : InstallationMode)
  (scale : number) (n c r : Z) :
  count p = of_Z n -> (1 <= n <= 1000)%Z ->
  controlPoints p = of_Z c -> (1 <= c <= 1000)%Z ->
  displayResolution p = of_Z r -> (1 <= r <= 1000)%Z ->
  corner_sized p mode ->
  exists res dxf,
    snd (generateRibProfiles p mode scale) = Returns res
    /\ existsb no_points (ribProfiles res) = false
    /\ exportDXF (ribProfiles res) q = Returns dxf
    /\ handleExportDXF (ribProfiles res) q
       = Returns (Some {| content := dxf;
                          filename := "mr-walls-ribs.dxf";
                          mimeType := "application/dxf" |}).
Proof.
  intros Hn Hn1 Hc Hc1 Hr Hr1 Hsized.
  pose proof (corner_sized_ok Hsized) as Hcorner.
  assert (Hr1' : (1 <= r)%Z) by lia.
  destruct (@generateRibProfiles_run Math_sin Math_asin imageData p mode scale n c r)
    as [rs [Hres Hrs]]; try assumption; try lia.
  pose proof (Forall2_length Hrs) as Hlen.
  rewrite length_map, length_seq in Hlen.
  pose proof (@iterations_nonempty (fst (generateRibProfiles p mode scale)) mode scale
                _ rs r Hr Hr1' Hcorner Hrs) as Hne.
  destruct (@exportDXF_returns (map fst rs) q Hne) as [dxf Hdxf].
  eexists. exists dxf. split; [exact Hres|]. cbn [ribProfiles].
  split; [assumption|]. split; [assumption|].
  unfold handleExportDXF. rewrite Hdxf.
  destruct (map fst rs) eqn:E; [|reflexivity].
  apply (f_equal (@List.length _)) in E. rewrite length_map in E. simpl in E. lia.
Qed.

End ExportFacts.

(** ** The DXF text, read back line by line *)

Lemma string_app_nil_r (a : string) : (a ++ "")%string = a.
Proof. induction a as [|c a IH]; simpl; [reflexivity|]. rewrite IH. reflexivity. Qed.

Lemma concat_empty_cons (a : string) (l : list string) :
  String.concat "" (a :: l) = (a ++ String.concat "" l)%string.
Proof. destruct l; simpl; [rewrite string_app_nil_r|]; reflexivity. Qed.

Lemma lines_cons (a : string) (l : list string) :
  lines (a :: l) = ((a ++ nl) ++ lines l)%string.
Proof. unfold lines. cbn [map]. apply concat_empty_cons. Qed.

Lemma lines_app (a b : list string) :
  lines (a ++ b)%list = (lines a ++ lines b)%string.
Proof.
  induction a as [|s a IH]; [reflexivity|].
  cbn [app]. rewrite !lines_cons, IH. symmetry. apply string_app_assoc.
Qed.

Lemma concat_lines {A : Type} (f : A -> string) (g : A -> list string) (l : list A) :
  (forall a, f a = lines (g a)) ->
  String.concat "" (map f l) = lines (flat_map g l).
Proof.
  intros H. induction l as [|a l IH]; [reflexivity|].
  cbn [map flat_map]. rewrite concat_empty_cons, lines_app, IH, H. reflexivity.
Qed.

Lemma no_newline_app (a b : string) :
  no_newline a = true -> no_newline b = true -> no_newline (a ++ b) = true.
Proof.
  intros Ha Hb. induction a as [|c a IH]; [assumption|].
  simpl in *. apply andb_true_iff in Ha. destruct Ha as [Hc Ha].
  rewrite Hc, IH by assumption. reflexivity.
Qed.

Lemma no_newline_substring (s : string) (i j : nat) :
  no_newline s = true -> no_newline (substring i j s) = true.
Proof.
  revert i j. induction s as [|c s IH]; intros i j H.
  - destruct i, j; reflexivity.
  - simpl in H. apply andb_true_iff in H. destruct H as [Hc Hs].
    destruct i as [|i].
    + destruct j as [|j]; [reflexivity|]. simpl. rewrite Hc, IH by assumption.
      reflexivity.
    + simpl. apply IH. assumption.
Qed.

Lemma no_newline_zeros (n : nat) : no_newline (zeros n) = true.
Proof. induction n as [|n IH]; [reflexivity|]. simpl. assumption. Qed.

Lemma no_newline_digits (n : Z) : no_newline (digits n) = true.
Proof.
  unfold digits. generalize (N.to_uint (Z.to_N n)). intros u.
  induction u; simpl; auto.
Qed.

Lemma no_newline_fixed_digits (a : Qc) (f : nat) :
  no_newline (fixed_digits a f) = true.
Proof.
  unfold fixed_digits. cbv zeta.
  set (m := digits _). assert (Hm : no_newline m = true) by apply no_newline_digits.
  destruct f as [|f]; [assumption|].
  set (m' := if (String.length m <=? S f)%nat then _ else _).
  assert (Hm' : no_newline m' = true).
  { unfold m'. destruct (String.length m <=? S f)%nat; [|assumption].
    apply no_newline_app; [apply no_newline_zeros|assumption]. }
  apply no_newline_app; [apply no_newline_substring; assumption|].
  apply no_newline_app; [reflexivity|apply no_newline_substring; assumption].
Qed.

Lemma no_newline_toFixed (large : Qc -> string) (a : number) (f : nat) :
  (forall q, no_newline (large q) = true) ->
  no_newline (toFixed large a f) = true.
Proof.
  intros H. destruct a as [| | |q]; try reflexivity.
  unfold toFixed. cbv zeta.
  assert (Hs : no_newline (if Qc_ltb q 0 then "-" else "") = true)
    by (destruct (Qc_ltb q 0); reflexivity).
  destruct (Qc_leb _ _); apply no_newline_app; auto using no_newline_fixed_digits.
Qed.

Lemma split_lines_line (current a rest : string) :
  no_newline a = true ->
  split_lines current ((a ++ nl) ++ rest)
  = (current ++ a)%string :: split_lines "" rest.
Proof.
  revert current. induction a as [|c a IH]; intros current H.
  - simpl. rewrite string_app_nil_r. reflexivity.
  - simpl in H. apply andb_true_iff in H. destruct H as [Hc Ha].
    apply negb_true_iff in Hc.
    change (((String c a ++ nl) ++ rest)%string)
      with (String c ((a ++ nl) ++ rest)%string).
    cbn [split_lines]. rewrite Hc, IH by assumption.
    rewrite string_app_assoc. reflexivity.
Qed.

Lemma split_lines_lines (l : list string) :
  Forall (fun s => no_newline s = true) l -> split_lines "" (lines l) = l.
Proof.
  induction 1 as [|a l Ha _ IH]; [reflexivity|].
  rewrite lines_cons, split_lines_line, IH by assumption. reflexivity.
Qed.

Lemma list_pair_ind {A : Type} (P : list A -> Prop) :
  P [] -> (forall a, P [a]) -> (forall a b l, P l -> P (a :: b :: l)) ->
  forall l, P l.
Proof.
  intros H0 H1 H2 l.
  assert (H : P l /\ forall a, P (a :: l)).
  { induction l as [|b l [IH1 IH2]]; [split; auto|].
    split; [apply IH2|]. intros a. apply H2. assumption. }
  apply H.
Qed.

Lemma entity_names_app (a b : list string) (na nb : list string) :
  entity_names a = Some na -> entity_names b = Some nb ->
  entity_names (a ++ b)%list = Some (na ++ nb)%list.
Proof.
  intros Ha Hb. revert na Ha.
  induction a as [|c|c v a IH] using list_pair_ind; intros na Ha.
  - injection Ha as <-. assumption.
  - discriminate.
  - cbn [app entity_names] in *.
    destruct (entity_names a) as [names|]; [|discriminate].
    rewrite (IH names eq_refl). injection Ha as <-.
    destruct (String.eqb c "0"); reflexivity.
Qed.

Section DxfFacts.

Variable Number_toString : Qc -> string.

Local Abbreviation toFixed6 := (toFixed6 Number_toString).
Local Abbreviation exportDXF := (exportDXF Number_toString).
Local Abbreviation rib_text := (rib_text Number_toString).
Local Abbreviation rib_lines := (rib_lines Number_toString).
Local Abbreviation vertex_lines := (vertex_lines Number_toString).
Local Abbreviation entities_lines := (entities_lines Number_toString).

Hypothesis host_no_newline : forall q, no_newline (Number_toString q) = true.

Lemma dxf_vertex_lines (offsetX : number) (point : Vector2) :
  dxf_vertex Number_toString offsetX point = lines (vertex_lines offsetX point).
Proof. unfold dxf_vertex, vertex_lines. rewrite lines_app. reflexivity. Qed.

Lemma rib_text_lines (p : RibParams) (e : RibProfile.t * number) :
  rib_text p e = lines (rib_lines p e).
Proof.
  destruct e as [rib i].
  unfold rib_text, rib_lines, dxf_entities, entities_lines. cbv zeta.
  rewrite !lines_app.
  rewrite (@concat_lines _ _ _ _ (dxf_vertex_lines _)). reflexivity.
Qed.

Lemma document_lines (p : RibParams) (entries : list (RibProfile.t * number)) :
  (dxf_prologue ++ String.concat "" (map (rib_text p) entries) ++ dxf_epilogue)%string
  = lines (prologue_lines ++ flat_map (rib_lines p) entries
           ++ ["0"; "ENDSEC"; "0"; "EOF"])%list.
Proof.
  rewrite !lines_app, (@concat_lines _ _ _ _ (rib_text_lines p)). reflexivity.
Qed.

Lemma toFixed6_clean (a : number) : no_newline (toFixed6 a) = true.
Proof. apply no_newline_toFixed, host_no_newline. Qed.

Lemma vertex_lines_clean (offsetX : number) (point : Vector2) :
  Forall (fun s => no_newline s = true) (vertex_lines offsetX point).
Proof.
  unfold vertex_lines. cbn [app].
  repeat (constructor; [first [reflexivity | apply toFixed6_clean]|]). constructor.
Qed.

Lemma rib_lines_clean (p : RibParams) (e : RibProfile.t * number) :
  Forall (fun s => no_newline s = true) (rib_lines p e).
Proof.
  destruct e as [rib i]. unfold rib_lines, entities_lines. cbv zeta.
  repeat (apply Forall_app; split);
    try (apply Forall_flat_map, Forall_forall; intros pt _; apply vertex_lines_clean);
    repeat (constructor; [first [reflexivity | apply toFixed6_clean]|]); constructor.
Qed.

Lemma entity_names_vertices (offsetX : number) (profile : list Vector2) :
  entity_names (flat_map (vertex_lines offsetX) profile)
  = Some (repeat "VERTEX" (List.length profile)).
Proof.
  induction profile as [|pt profile IH]; [reflexivity|].
  cbn [flat_map List.length repeat].
  change ("VERTEX" :: repeat "VERTEX" (List.length profile))
    with (["VERTEX"] ++ repeat "VERTEX" (List.length profile))%list.
  apply entity_names_app; [reflexivity|assumption].
Qed.

Lemma entity_names_rib (p : RibParams) (rib : RibProfile.t) (i : number) :
  entity_names (rib_lines p (rib, i)) = Some (rib_names rib).
Proof.
  unfold rib_lines, entities_lines, rib_names. cbv zeta.
  change (["LINE"; "POLYLINE"]
          ++ repeat "VERTEX" (List.length (RibProfile.profile rib))
          ++ ["SEQEND"; "LINE"; "LINE"])%list
    with (["LINE"] ++ [] ++ [] ++ ["POLYLINE"]
          ++ repeat "VERTEX" (List.length (RibProfile.profile rib))
          ++ ["SEQEND"] ++ ["LINE"] ++ [] ++ [] ++ ["LINE"] ++ [] ++ [])%list.
  repeat (apply entity_names_app;
          [first [reflexivity | apply entity_names_vertices]|]).
  reflexivity.
Qed.

Lemma entity_names_entries (p : RibParams) (ribs : list RibProfile.t) (k : nat) :
  entity_names (flat_map (rib_lines p)
                  (combine ribs (map of_nat (seq k (List.length ribs)))))
  = Some (flat_map rib_names ribs).
Proof.
  revert k. induction ribs as [|rib ribs IH]; intros k; [reflexivity|].
  cbn [List.length seq map combine flat_map].
  apply entity_names_app; [apply entity_names_rib|apply IH].
Qed.

(** X15. The exported DXF reads back as a sequence of group code and value
    lines.  When no rib has an empty profile and the host prints numbers
    without line feeds, the entities of the document are, in order, the
    section and table markers of the prologue, then for every rib a LINE, a
    POLYLINE with one VERTEX per profile point closed by SEQEND, and two
    more LINEs, then ENDSEC and EOF. *)
Theorem exportDXF_entities (ribs : list RibProfile.t) (p : RibParams) :
  existsb no_points ribs = false ->
  exists dxf,
    exportDXF ribs p = Returns dxf
    /\ entity_names (split_lines "" dxf)
       = Some (prologue_names ++ flat_map rib_names ribs ++ epilogue_names)%list.
Proof.
  intros H. unfold exportDXF. cbv zeta. rewrite dxf_groups.
  unfold indexed at 1. rewrite existsb_indexed_from, H. cbn [bind].
  eexists; split; [reflexivity|].
  rewrite document_lines, split_lines_lines.
  - apply entity_names_app; [reflexivity|].
    apply entity_names_app; [apply entity_names_entries|reflexivity].
  - apply Forall_app; split; [repeat constructor|].
    apply Forall_app; split; [|repeat constructor].
    apply Forall_flat_map, Forall_forall. intros e _. apply rib_lines_clean.
Qed.

End DxfFacts.

Lemma exportDXF_entities_witness :
  exists dxf,
    exportDXF (fun _ => "1e+21") [rib_of 0 [pt 1 0; pt 2 72; pt 1 144]] small_params
    = Returns dxf
    /\ entity_names (split_lines "" dxf)
       = Some (prologue_names
               ++ flat_map rib_names [rib_of 0 [pt 1 0; pt 2 72; pt 1 144]]
               ++ epilogue_names)%list.
Proof.
  apply (@exportDXF_entities (fun _ => "1e+21")).
  - intros q. reflexivity.
  - reflexivity.
Defined.

(** ** A zero image scale *)

Lemma wrap_zero_scale (u : number) : (u / of_Z 0) %% of_Z 1 = NaN.
Proof.
  destruct u as [| | |q]; try reflexivity.
  unfold of_Z at 1, div.
  change (Qc_eqb (Q2Qc (inject_Z 0)) 0) with true. cbv iota.
  destruct (sign (Fin q)); reflexivity.
Qed.

Lemma sampleImageBrightness_zero_scale (img : Image.t) (u v : number) :
  sampleImageBrightness (Some img) u v (of_Z 0) = NaN.
Proof.
  unfold sampleImageBrightness. cbv zeta. rewrite !wrap_zero_scale. reflexivity.
Qed.

Lemma sample_depth_zero_scale (Math_sin Math_asin : number -> number)
  (img : Image.t) (p : RibParams) (ri t : number) :
  sample_depth Math_sin Math_asin (Some img) p ri (of_Z 0) t = NaN.
Proof.
  unfold sample_depth. cbv zeta. rewrite sampleImageBrightness_zero_scale.
  destruct (minDepth p); reflexivity.
Qed.



(** ** Control points of the L-shaped run *)

Lemma generateControlPointsLPath_explicit (Math_sin Math_asin : number -> number)
  (imageData : option Image.t) (p : RibParams) (ri totalPath scale : number) (m : Z) :
  Math_round (controlPoints p * (totalPath / height p)) = of_Z m -> (2 <= m)%Z ->
  generateControlPointsLPath Math_sin Math_asin imageData p ri totalPath scale
  = Returns (map (fun i : nat =>
                    {| x := sample_depth Math_sin Math_asin imageData p ri scale
                              (Fin (fraction i m));
                       y := Fin (fraction i m) * totalPath |})
                 (seq 0 (Z.to_nat m))).
Proof.
  intros Hm Hm2. unfold generateControlPointsLPath. cbv zeta.
  rewrite Hm, for_lt_of_Z.
  cbn [bind]. f_equal. rewrite map_map. apply map_ext. intros i.
  unfold of_nat. rewrite sub_of_Z, div_of_Z_Fin by lia. reflexivity.
Qed.

(** X17. The control points of the L-shaped run.  For an integer
    [controlPoints] between 2 and 1000, a wall height between 1 and 1000 and
    a path [totalPath] from [height] to 2000 long, the run gets at least
    [controlPoints] points; they start at position 0, end at [totalPath]
    exactly and their positions increase strictly. *)
Theorem generateControlPointsLPath_positions (Math_sin Math_asin : number -> number)
  (imageData : option Image.t) (p : RibParams) (ri scale : number) (c : Z)
  (h tp : Qc) :
  controlPoints p = of_Z c -> (2 <= c <= 1000)%Z ->
  height p = Fin h -> (1 <= h)%Qc -> (h <= Q2Qc (inject_Z 1000))%Qc ->
  (h <= tp)%Qc -> (tp <= Q2Qc (inject_Z 2000))%Qc ->
  exists m pts,
    (c <= m)%Z
    /\ generateControlPointsLPath Math_sin Math_asin imageData p ri (Fin tp) scale
       = Returns pts
    /\ List.length pts = Z.to_nat m
    /\ option_map y (nth_error pts 0) = Some (of_Z 0)
    /\ option_map y (nth_error pts (Z.to_nat m - 1)) = Some (Fin tp)
    /\ forall i a b, nth_error pts i = Some a -> nth_error pts (S i) = Some b ->
                     (y a <? y b) = true.
Proof.
  intros Hc Hc2 Hh Hh1 _ Htp _.
  assert (Hh0 : (0 < h)%Qc).
  { unfold Qclt, Qcle in *. change (this 0%Qc) with 0%Q.
    change (this 1%Qc) with 1%Q in Hh1. lra. }
  assert (Hcr0 : (0 <= tp - h)%Qc).
  { unfold Qcle in *. rewrite this_Qcminus. change (this 0%Qc) with 0%Q. lra. }
  assert (Etp : Fin h + Fin (tp - h)%Qc = Fin tp) by (unfold add; f_equal; ring).
  destruct (@round_scaled_ge c h (tp - h)%Qc) as [m [Em Hm]];
    [lia|assumption|assumption|].
  rewrite Etp in Em.
  assert (Hpos : (0 < tp)%Qc).
  { unfold Qclt, Qcle in *. change (this 0%Qc) with 0%Q in *. lra. }
  exists m. eexists. split; [assumption|]. split.
  { apply generateControlPointsLPath_explicit; [rewrite Hc, Hh; exact Em|lia]. }
  split; [rewrite length_map, length_seq; reflexivity|].
  split; [|split].
  - rewrite nth_error_map, nth_error_seq.
    destruct (Nat.ltb_spec 0 (Z.to_nat m)); [|lia].
    cbn [option_map y Nat.add]. rewrite fraction_first by lia.
    f_equal. unfold mul, of_Z. f_equal.
    change (Q2Qc (inject_Z 0)) with 0%Qc. ring.
  - rewrite nth_error_map, nth_error_seq.
    destruct (Nat.ltb_spec (Z.to_nat m - 1) (Z.to_nat m)); [|lia].
    cbn [option_map y Nat.add]. rewrite fraction_last by lia.
    f_equal. unfold mul. f_equal. ring.
  - intros i a b Ha Hb.
    rewrite nth_error_map, nth_error_seq in Ha, Hb.
    destruct (Nat.ltb_spec i (Z.to_nat m)); [|discriminate].
    destruct (Nat.ltb_spec (S i) (Z.to_nat m)); [|discriminate].
    cbn [option_map Nat.add] in Ha, Hb. inversion Ha; inversion Hb; subst a b.
    cbn [y]. unfold mul, lt. apply Qc_ltb_lt.
    apply Qcmult_lt_compat_r; [assumption|]. apply fraction_increasing. lia.
Qed.

Lemma generateControlPointsLPath_positions_witness :
  exists m pts,
    (4 <= m)%Z
    /\ generateControlPointsLPath flat_sin flat_asin None small_params (of_Z 0)
         (Fin (Q2Qc (inject_Z 240))) (of_Z 1) = Returns pts
    /\ List.length pts = Z.to_nat m
    /\ option_map y (nth_error pts 0) = Some (of_Z 0)
    /\ option_map y (nth_error pts (Z.to_nat m - 1))
       = Some (Fin (Q2Qc (inject_Z 240)))
    /\ forall i a b, nth_error pts i = Some a -> nth_error pts (S i) = Some b ->
                     (y a <? y b) = true.
Proof.
  apply (@generateControlPointsLPath_positions flat_sin flat_asin None small_params
           (of_Z 0) (of_Z 1) 4 (Q2Qc (inject_Z 144)) (Q2Qc (inject_Z 240))).
  - reflexivity.
  - lia.
  - reflexivity.
  - apply Qc_le_by_leb. vm_compute. reflexivity.
  - apply Qc_le_by_leb. vm_compute. reflexivity.
  - apply Qc_le_by_leb. vm_compute. reflexivity.
  - apply Qc_le_by_leb. vm_compute. reflexivity.
Defined.

(** ** The rows of the CSV report *)

Lemma concat_lines_map {A : Type} (f : A -> string) (l : list A) :
  String.concat "" (map (fun a => lines [f a]) l) = lines (map f l).
Proof.
  induction l as [|a l IH]; [reflexivity|].
  cbn [map]. rewrite concat_empty_cons, IH, (lines_cons (f a) (map f l)).
  unfold lines at 1. cbn [map String.concat]. reflexivity.
Qed.

Lemma no_newline_ToString (host : Qc -> string) (a : number) :
  (forall q, no_newline (host q) = true) -> no_newline (ToString host a) = true.
Proof.
  intros H. destruct a as [| | |q]; try reflexivity.
  unfold ToString. cbv zeta.
  assert (Hs : no_newline (if Qc_ltb q 0 then "-" else "") = true)
    by (destruct (Qc_ltb q 0); reflexivity).
  destruct (_ && _); apply no_newline_app; auto using no_newline_digits.
Qed.

Lemma no_newline_wave_name (w : number) :
  no_newline match array_get WAVE_TYPES w with
             | Some name => name
             | None => "undefined"
             end = true.
Proof.
  unfold array_get. destruct w as [| | |q]; try reflexivity.
  destruct (_ && _); [|reflexivity].
  destruct (Z.to_nat (Qfloor q)) as [|[|[|[|k]]]]; reflexivity.
Qed.

Section CsvRows.

Variable Number_toString : Qc -> string.
Hypothesis host_no_newline : forall q, no_newline (Number_toString q) = true.

Local Abbreviation exportCSV := (exportCSV Number_toString).
Local Abbreviation handleExportCSV := (handleExportCSV Number_toString).
Local Abbreviation show := (show Number_toString).

Ltac clean_line :=
  repeat first
    [ reflexivity
    | apply no_newline_ToString, host_no_newline
    | apply no_newline_toFixed, host_no_newline
    | apply no_newline_wave_name
    | apply no_newline_app ].


End CsvRows.

(** ** Closed instances of the further properties *)

Lemma sampleImageBrightness_tiling_witness :
  sampleImageBrightness (Some stripes) (frac 25 4) (frac (-7) 2) (of_Z 2)
  = sampleImageBrightness (Some stripes) (frac 1 4) (frac 1 2) (of_Z 2).
Proof.
  apply (@sampleImageBrightness_tiling stripes (frac 1 4) (frac 25 4)
           (frac 1 2) (frac (-7) 2) (of_Z 2) (Q2Qc (1 # 8)) (Q2Qc (1 # 4)) 3 (-2)).
  all: vm_compute; reflexivity.
Defined.

Lemma generateRibProfiles_no_ribs_witness :
  (of_Z 0 <? count (with_count small_params (of_Z 0))) = false
  /\ snd (generateRibProfiles flat_sin flat_asin None
            (with_count (with_controlPoints small_params (of_Z 0)) (of_Z 0))
            both (of_Z 1))
     = Returns {| ribProfiles := []; ceilingProfilesArr := [] |}.
Proof.
  split; [vm_compute; reflexivity|].
  apply (@generateRibProfiles_no_ribs flat_sin flat_asin None
           (with_count (with_controlPoints small_params (of_Z 0)) (of_Z 0))
           both (of_Z 1)).
  vm_compute. reflexivity.
Defined.




Lemma calculatePricing_deep_ribs_witness :
  ribsPerSheet (snd (calculatePricing plain_toString
                       (assign_depths budget_params (of_Z 4) (of_Z 60)) wall false))
  = of_Z 0
  /\ sheetsNeeded (snd (calculatePricing plain_toString
                          (assign_depths budget_params (of_Z 4) (of_Z 60)) wall false))
     = of_Z 40
       * sectionsPerRib (snd (calculatePricing plain_toString
                                (assign_depths budget_params (of_Z 4) (of_Z 60))
                                wall false)).
Proof.
  apply (@calculatePricing_deep_ribs plain_toString
           (assign_depths budget_params (of_Z 4) (of_Z 60)) wall false 40
           (Q2Qc (inject_Z 60)) (Q2Qc (inject_Z 144))).
  - reflexivity.
  - reflexivity.
  - apply Qc_lt_by_ltb. vm_compute. reflexivity.
  - reflexivity.
Defined.


Lemma generated_ribs_export_witness :
  exists res dxf,
    snd (generateRibProfiles flat_sin flat_asin None small_params both (of_Z 1))
    = Returns res
    /\ existsb no_points (ribProfiles res) = false
    /\ exportDXF plain_toString (ribProfiles res) small_params = Returns dxf
    /\ handleExportDXF plain_toString (ribProfiles res) small_params
       = Returns (Some {| content := dxf;
                          filename := "mr-walls-ribs.dxf";
                          mimeType := "application/dxf" |}).
Proof.
  apply (@generated_ribs_export flat_sin flat_asin plain_toString None
           small_params small_params both (of_Z 1) 3 4 6);
    try reflexivity; try lia.
  apply small_params_corner_sized.
Defined.

